(** * Morpheus: service registry and RPC layer over Redis (lib.go)

    A shallow embedding of [lib.go].  Go strings are byte strings
    ([string]), [int] and [int64] are integers ([Z]), Go maps are finite
    maps ([gmap]), slices are lists.  The Redis server the client talks
    to, the goroutines that were started, the random source and the clock
    are explicit components of a [World] that every method threads. *)

From Stdlib Require Import ZArith Ascii String List Permutation Sorted Lia.
From stdpp Require Import base option list gmap strings pretty.

Local Open Scope string_scope.
Local Open Scope Z_scope.

(** ** Strings *)

(** [strings.HasPrefix(s, prefix)]:
    [len(s) >= len(prefix) && s[:len(prefix)] == prefix]. *)
Definition HasPrefix (s prefix : string) : bool :=
  (String.length prefix <=? String.length s)%nat
  && String.eqb (substring 0 (String.length prefix) s) prefix.

(** ** Services and their route tables *)

(** A [MessageHandler] is a Go function value; the model keeps only which
    handler it is. *)
Definition MessageHandler := nat.

Record ServiceRoute := mkServiceRoute {
  Route : string;
  Handler : option MessageHandler  (* [None] is the nil func *)
}.

Definition ServiceRoutes := list ServiceRoute.

(** A [chan bool] value is a reference to a channel, or nil. *)
Definition chan := option nat.

Record Service := mkService {
  Id : string;
  Name : string;
  IpAddress : string;
  Port : Z;
  Routes : ServiceRoutes;
  LivenessChannel : chan
}.

(** [ServiceRoutes.Len] *)
Definition Len (s : ServiceRoutes) : Z := Z.of_nat (length s).

(** The comparison [ServiceRoutes.Less] makes on two entries:
    [len(a.Route) > len(b.Route)]. *)
Definition routeLess (a b : ServiceRoute) : bool :=
  (String.length (Route b) <? String.length (Route a))%nat.

(** [ServiceRoutes.Less(i, j)]; [None] is the index-out-of-range panic. *)
Definition Less (s : ServiceRoutes) (i j : nat) : option bool :=
  match s !! i, s !! j with
  | Some a, Some b => Some (routeLess a b)
  | _, _ => None
  end.

(** [Service.Match]: the first route that is a prefix of [path] returns
    true; falling off the end of the loop returns false. *)
Fixpoint matchRoutes (routes : ServiceRoutes) (path : string) : bool :=
  match routes with
  | [] => false
  | route :: rest =>
      if HasPrefix path (Route route) then true else matchRoutes rest path
  end.

Definition Match (s : Service) (path : string) : bool :=
  matchRoutes (Routes s) path.

(** A stable sort driven by a strict "less" test, as [sort.Stable] and
    [sort.SliceStable] compute it: elements that compare equal keep their
    order. *)
Section StableSort.
Context {A : Type} (less : A -> A -> bool).

Fixpoint insertStable (x : A) (l : list A) : list A :=
  match l with
  | [] => [x]
  | y :: l' => if less y x then y :: insertStable x l' else x :: y :: l'
  end.

Fixpoint sortStable (l : list A) : list A :=
  match l with
  | [] => []
  | x :: l' => insertStable x (sortStable l')
  end.
End StableSort.

(** The route table in the order [ServiceRoutes.Less] induces (longest
    route first). *)
Definition sortRoutes (s : ServiceRoutes) : ServiceRoutes :=
  sortStable routeLess s.

(** [s] with its route table replaced. *)
Definition withRoutes (s : Service) (routes : ServiceRoutes) : Service :=
  {| Id := Id s; Name := Name s; IpAddress := IpAddress s; Port := Port s;
     Routes := routes; LivenessChannel := LivenessChannel s |}.

(** ** JSON documents

    [encoding/json] is modelled at the level of documents: a value of
    [JValue] is the document a JSON text denotes, with string escapes
    resolved.  Numbers are the integer literals; the library itself never
    writes another kind of number. *)

#[local] Unset Elimination Schemes.

Inductive JValue :=
| JNull
| JBool (b : bool)
| JNumber (n : Z)
| JString (s : string)
| JArray (elems : list JValue)
| JObject (fields : list (string * JValue)).

(** *** Strings are coerced to valid UTF-8 on encoding

    The encoder replaces each byte that does not start a well-formed
    UTF-8 sequence by U+FFFD (bytes EF BF BD), following
    [utf8.DecodeRuneInString]. *)

Definition byteIn (lo hi : N) (c : ascii) : bool :=
  ((lo <=? N_of_ascii c) && (N_of_ascii c <=? hi))%N.

Definition isCont : ascii -> bool := byteIn 128 191.

(** Range accepted for the second byte, by first byte. *)
Definition secondOk (b0 b1 : ascii) : bool :=
  if byteIn 224 224 b0 then byteIn 160 191 b1
  else if byteIn 237 237 b0 then byteIn 128 159 b1
  else if byteIn 240 240 b0 then byteIn 144 191 b1
  else if byteIn 244 244 b0 then byteIn 128 143 b1
  else isCont b1.

Definition twoBytes (b0 b1 : ascii) : bool :=
  byteIn 194 223 b0 && isCont b1.

Definition threeBytes (b0 b1 b2 : ascii) : bool :=
  byteIn 224 239 b0 && secondOk b0 b1 && isCont b2.

Definition fourBytes (b0 b1 b2 b3 : ascii) : bool :=
  byteIn 240 244 b0 && secondOk b0 b1 && isCont b2 && isCont b3.

Definition replacementChar : string :=
  String (ascii_of_N 239) (String (ascii_of_N 191) (String (ascii_of_N 189) "")).

Fixpoint coerceUTF8 (s : string) : string :=
  match s with
  | EmptyString => EmptyString
  | String b0 s1 =>
      let bad := replacementChar +:+ coerceUTF8 s1 in
      if byteIn 0 127 b0 then String b0 (coerceUTF8 s1)
      else
        match s1 with
        | String b1 s2 =>
            if twoBytes b0 b1 then String b0 (String b1 (coerceUTF8 s2))
            else
              match s2 with
              | String b2 s3 =>
                  if threeBytes b0 b1 b2
                  then String b0 (String b1 (String b2 (coerceUTF8 s3)))
                  else
                    match s3 with
                    | String b3 s4 =>
                        if fourBytes b0 b1 b2 b3
                        then String b0 (String b1 (String b2
                               (String b3 (coerceUTF8 s4))))
                        else bad
                    | EmptyString => bad
                    end
              | EmptyString => bad
              end
        | EmptyString => bad
        end
  end.

(** A string the encoder leaves as it is. *)
Definition validUTF8 (s : string) : Prop := coerceUTF8 s = s.

(** *** Go values held in an [interface{}]

    [GSlice] is a non-nil [[]interface{}] and [GMap] a non-nil
    [map[string]interface{}], kept as its entries in ascending key order.
    [GFloat64 z] is the [float64] whose value is the integer [z]; the
    model is exact for the integers a [float64] holds without rounding
    (magnitude at most 2^53) and has no other floating-point values.
    [GChan] stands for the values [encoding/json] has no encoding for
    (channels, functions). *)

Inductive GoValue :=
| GNil
| GBool (b : bool)
| GString (s : string)
| GInt (z : Z)
| GFloat64 (z : Z)
| GSlice (elems : list GoValue)
| GMap (entries : list (string * GoValue))
| GChan (c : nat).

#[local] Set Elimination Schemes.

(** Finite maps with string keys as sorted association lists. *)
Fixpoint mapInsert {V : Type} (k : string) (v : V) (m : list (string * V))
  : list (string * V) :=
  match m with
  | [] => [(k, v)]
  | (k', v') :: m' =>
      match String.compare k k' with
      | Lt => (k, v) :: m
      | Eq => (k, v) :: m'
      | Gt => (k', v') :: mapInsert k v m'
      end
  end.

Definition mkMap {V : Type} (l : list (string * V)) : list (string * V) :=
  fold_left (fun m kv => mapInsert (fst kv) (snd kv) m) l [].

(** Does the encoder accept the value? *)
Fixpoint supported (v : GoValue) : bool :=
  match v with
  | GChan _ => false
  | GSlice l => forallb supported l
  | GMap m => forallb (fun kv => supported (snd kv)) m
  | _ => true
  end.

(** The document the encoder writes for a supported value.  Map entries
    are written in key order. *)
Fixpoint encodeValue (v : GoValue) : JValue :=
  match v with
  | GNil => JNull
  | GBool b => JBool b
  | GString s => JString (coerceUTF8 s)
  | GInt z => JNumber z
  | GFloat64 z => JNumber z
  | GSlice l => JArray (map encodeValue l)
  | GMap m =>
      JObject (map (fun kv => (coerceUTF8 (fst kv), snd kv))
                 (mkMap (map (fun kv => (fst kv, encodeValue (snd kv))) m)))
  | GChan _ => JNull
  end.

(** Decoding into an [interface{}]: numbers become [float64], arrays
    [[]interface{}], objects [map[string]interface{}] (a repeated key
    keeps its last value). *)
Fixpoint decodeValue (j : JValue) : GoValue :=
  match j with
  | JNull => GNil
  | JBool b => GBool b
  | JNumber n => GFloat64 n
  | JString s => GString s
  | JArray l => GSlice (map decodeValue l)
  | JObject fs => GMap (mkMap (map (fun kv => (fst kv, decodeValue (snd kv))) fs))
  end.

(** The payloads that the round trip through JSON is proved to give
    back unchanged: nil, a bool, a string that is valid UTF-8, a
    [float64] holding an integer of magnitude at most 2^53, a
    [[]interface{}] of such values, and a [map[string]interface{}] of
    such values whose keys are valid UTF-8 (its entries in key order
    without repetition, which is how the model keeps a map).  An [int]
    and a channel are not among them; [float64] values that are not
    integers of that size are outside the model. *)
Fixpoint preservedPayload (v : GoValue) : Prop :=
  match v with
  | GNil | GBool _ => True
  | GString s => validUTF8 s
  | GFloat64 z => Z.abs z <= 2 ^ 53
  | GSlice l =>
      (fix all (l : list GoValue) : Prop :=
         match l with
         | [] => True
         | x :: l' => preservedPayload x /\ all l'
         end) l
  | GMap m =>
      mkMap m = m
      /\ (fix all (m : list (string * GoValue)) : Prop :=
            match m with
            | [] => True
            | kv :: m' => validUTF8 (fst kv) /\ preservedPayload (snd kv) /\ all m'
            end) m
  | GInt _ | GChan _ => False
  end.

(** ** Messages *)

Module Msg.
Record Message := mkMessage {
  Timestamp : Z;            (* int64, [json:"timestamp,omitempty"] *)
  MsgId : string;           (* [json:"msg_id,omitempty"] *)
  ResponseChannel : string; (* [json:"response_channel,omitempty"] *)
  Channel : string;         (* [json:"channel,omitempty"] *)
  Route : string;           (* [json:"route,omitempty"] *)
  From : string;            (* [json:"from,omitempty"] *)
  To : string;              (* [json:"to,omitempty"] *)
  Payload : GoValue         (* [interface{}], [json:"payload,omitempty"] *)
}.
End Msg.

Inductive error :=
| ErrServiceExists      (* "service already exists" *)
| ErrServiceNotFound    (* "service not found" *)
| ErrRedisNil           (* redis: nil, the key does not exist *)
| ErrWrongType          (* WRONGTYPE, the key holds another kind of value *)
| ErrUnsupportedType    (* json: unsupported type *)
| ErrSyntax             (* json: the text is not a JSON document *)
| ErrUnmarshalType      (* json: cannot unmarshal ... into Go value *)
| ErrIDInUse.           (* tasks: id already used *)

Inductive result (A : Type) :=
| OK (a : A)
| Err (e : error).
Arguments OK {A} a.
Arguments Err {A} e.

Definition isErr {A : Type} (r : result A) : bool :=
  match r with OK _ => false | Err _ => true end.

(** A byte string on the wire or in the store.  A text written by
    [json.Marshal] is kept as the document it encodes; any other byte
    string is [Raw].  The model has no parser: [json.Unmarshal] is defined
    on documents and rejects [Raw] text, which the library never hands to
    it. *)
Inductive Text :=
| Raw (s : string)
| Doc (j : JValue).

Definition int64Min : Z := - 2 ^ 63.
Definition int64Max : Z := 2 ^ 63 - 1.
Definition inInt64 (n : Z) : bool := (int64Min <=? n) && (n <=? int64Max).

(** [omitempty] on a string and on an integer field. *)
Definition omitString (key s : string) : list (string * JValue) :=
  if String.eqb s "" then [] else [(key, JString (coerceUTF8 s))].

Definition omitInt (key : string) (n : Z) : list (string * JValue) :=
  if n =? 0 then [] else [(key, JNumber n)].

(** [omitempty] on an [interface{}] field leaves out the nil interface
    only. *)
Definition omitAny (key : string) (v : GoValue) : list (string * JValue) :=
  match v with
  | GNil => []
  | _ => [(key, encodeValue v)]
  end.

Definition messageFields (m : Msg.Message) : list (string * JValue) :=
  omitInt "timestamp" (Msg.Timestamp m)
  ++ omitString "msg_id" (Msg.MsgId m)
  ++ omitString "response_channel" (Msg.ResponseChannel m)
  ++ omitString "channel" (Msg.Channel m)
  ++ omitString "route" (Msg.Route m)
  ++ omitString "from" (Msg.From m)
  ++ omitString "to" (Msg.To m)
  ++ omitAny "payload" (Msg.Payload m).

(** [json.Marshal(message)] *)
Definition marshalMessage (m : Msg.Message) : result JValue :=
  if supported (Msg.Payload m) then OK (JObject (messageFields m))
  else Err ErrUnsupportedType.

(** [Message.Json]: a failed [json.Marshal] is logged and the nil slice it
    left in [b] is returned. *)
Definition Json (m : Msg.Message) : Text :=
  match marshalMessage m with
  | OK j => Doc j
  | Err _ => Raw ""
  end.

(** *** Decoding into a struct

    A key selects the field whose name it equals, ignoring ASCII case.  A
    [null] leaves a string or integer field as it is and sets an
    [interface{}] field to nil; a value of the wrong JSON type makes the
    call fail; unknown keys are skipped; of a repeated key the last
    value stays. *)

Definition lowerAscii (c : ascii) : ascii :=
  if byteIn 65 90 c then ascii_of_N (N_of_ascii c + 32) else c.

Fixpoint lowerString (s : string) : string :=
  match s with
  | EmptyString => EmptyString
  | String c s' => String (lowerAscii c) (lowerString s')
  end.

Definition keyIs (name key : string) : bool :=
  String.eqb (lowerString name) (lowerString key).

Definition zeroMessage : Msg.Message :=
  Msg.mkMessage 0 "" "" "" "" "" "" GNil.

Definition decodeString (v : JValue) (old : string) : option string :=
  match v with
  | JString s => Some s
  | JNull => Some old
  | _ => None
  end.

Definition decodeInt64 (v : JValue) (old : Z) : option Z :=
  match v with
  | JNumber n => if inInt64 n then Some n else None
  | JNull => Some old
  | _ => None
  end.

Definition setMessageField (m : Msg.Message) (kv : string * JValue)
  : option Msg.Message :=
  let (k, v) := kv in
  let '(Msg.mkMessage ts id rc ch rt fr to pl) := m in
  if keyIs "timestamp" k then
    ts' ← decodeInt64 v ts; Some (Msg.mkMessage ts' id rc ch rt fr to pl)
  else if keyIs "msg_id" k then
    s ← decodeString v id; Some (Msg.mkMessage ts s rc ch rt fr to pl)
  else if keyIs "response_channel" k then
    s ← decodeString v rc; Some (Msg.mkMessage ts id s ch rt fr to pl)
  else if keyIs "channel" k then
    s ← decodeString v ch; Some (Msg.mkMessage ts id rc s rt fr to pl)
  else if keyIs "route" k then
    s ← decodeString v rt; Some (Msg.mkMessage ts id rc ch s fr to pl)
  else if keyIs "from" k then
    s ← decodeString v fr; Some (Msg.mkMessage ts id rc ch rt s to pl)
  else if keyIs "to" k then
    s ← decodeString v to; Some (Msg.mkMessage ts id rc ch rt fr s pl)
  else if keyIs "payload" k then
    Some (Msg.mkMessage ts id rc ch rt fr to (decodeValue v))
  else Some m.

(** The fields of an object are stored one after the other; the first
    failure is what the call reports. *)
Fixpoint setFields {S : Type} (set : S -> string * JValue -> option S)
    (s : S) (fields : list (string * JValue)) : option S :=
  match fields with
  | [] => Some s
  | kv :: rest =>
      match set s kv with
      | Some s' => setFields set s' rest
      | None => None
      end
  end.

(** [json.Unmarshal(data, &message)] with [message] the zero value. *)
Definition unmarshalMessage (data : Text) : result Msg.Message :=
  match data with
  | Raw _ => Err ErrSyntax
  | Doc (JObject fields) =>
      match setFields setMessageField zeroMessage fields with
      | Some m => OK m
      | None => Err ErrUnmarshalType
      end
  | Doc JNull => OK zeroMessage
  | Doc _ => Err ErrUnmarshalType
  end.

(** *** The [Service] record as JSON

    [Handler] and [LivenessChannel] carry [json:"-"]: they are neither
    written nor read.  A [ServiceRoute] has no tag on [Route], so its key
    is the field name. *)

Definition routeDoc (r : ServiceRoute) : JValue :=
  JObject [("Route", JString (coerceUTF8 (Route r)))].

Definition serviceFields (s : Service) : list (string * JValue) :=
  omitString "id" (Id s)
  ++ omitString "name" (Name s)
  ++ omitString "ip_address" (IpAddress s)
  ++ omitInt "port" (Port s)
  ++ match Routes s with
     | [] => []
     | routes => [("routes", JArray (map routeDoc routes))]
     end.

(** [json.Marshal(svc)]; every field of a [Service] has an encoding. *)
Definition marshalService (s : Service) : JValue :=
  JObject (serviceFields s).

Definition zeroRoute : ServiceRoute := mkServiceRoute "" None.
Definition zeroService : Service := mkService "" "" "" 0 [] None.

Definition setRouteField (r : ServiceRoute) (kv : string * JValue)
  : option ServiceRoute :=
  let (k, v) := kv in
  if keyIs "Route" k then
    s ← decodeString v (Route r); Some (mkServiceRoute s (Handler r))
  else Some r.

Definition decodeRoute (v : JValue) : option ServiceRoute :=
  match v with
  | JObject fields => setFields setRouteField zeroRoute fields
  | JNull => Some zeroRoute
  | _ => None
  end.

(** An array is decoded element by element into a fresh slice. *)
Definition decodeRoutes (v : JValue) (old : ServiceRoutes)
  : option ServiceRoutes :=
  match v with
  | JArray elems => mapM decodeRoute elems
  | JNull => Some old
  | _ => None
  end.

Definition setServiceField (s : Service) (kv : string * JValue)
  : option Service :=
  let (k, v) := kv in
  let '(mkService id name ip port routes live) := s in
  if keyIs "id" k then
    x ← decodeString v id; Some (mkService x name ip port routes live)
  else if keyIs "name" k then
    x ← decodeString v name; Some (mkService id x ip port routes live)
  else if keyIs "ip_address" k then
    x ← decodeString v ip; Some (mkService id name x port routes live)
  else if keyIs "port" k then
    x ← decodeInt64 v port; Some (mkService id name ip x routes live)
  else if keyIs "routes" k then
    x ← decodeRoutes v routes; Some (mkService id name ip port x live)
  else Some s.

(** [json.Unmarshal(data, &svc)] with [svc] the zero value. *)
Definition unmarshalService (data : Text) : result Service :=
  match data with
  | Raw _ => Err ErrSyntax
  | Doc (JObject fields) =>
      match setFields setServiceField zeroService fields with
      | Some s => OK s
      | None => Err ErrUnmarshalType
      end
  | Doc JNull => OK zeroService
  | Doc _ => Err ErrUnmarshalType
  end.

(** *** The bytes of a document

    Needed where a stored text is used as a plain string.  Strings are
    written with the encoder's escapes, containers without white space. *)

Definition dquote : ascii := ascii_of_N 34.

Definition hexDigit (n : N) : ascii :=
  if (n <? 10)%N then ascii_of_N (48 + n) else ascii_of_N (87 + n).

Definition escapeU00 (c : ascii) : string :=
  "\u00" +:+ String (hexDigit (N_of_ascii c / 16))
               (String (hexDigit (N_of_ascii c mod 16)) "").

Fixpoint escapeString (s : string) : string :=
  match s with
  | EmptyString => EmptyString
  | String c s' =>
      let n := N_of_ascii c in
      if (n =? 34)%N then String "\" (String dquote (escapeString s'))
      else if (n =? 92)%N then "\\" +:+ escapeString s'
      else if (n =? 8)%N then "\b" +:+ escapeString s'
      else if (n =? 12)%N then "\f" +:+ escapeString s'
      else if (n =? 10)%N then "\n" +:+ escapeString s'
      else if (n =? 13)%N then "\r" +:+ escapeString s'
      else if (n =? 9)%N then "\t" +:+ escapeString s'
      else if (n <? 32)%N then escapeU00 c +:+ escapeString s'
      else if ((n =? 60) || (n =? 62) || (n =? 38))%N
           then escapeU00 c +:+ escapeString s'
      else
        match s' with
        | String c1 (String c2 s'') =>
            if ((n =? 226) && (N_of_ascii c1 =? 128)
                && ((N_of_ascii c2 =? 168) || (N_of_ascii c2 =? 169)))%N
            then "\u202" +:+ String (hexDigit (N_of_ascii c2 - 160))
                               (escapeString s'')
            else String c (escapeString s')
        | _ => String c (escapeString s')
        end
  end.

Definition quote (s : string) : string :=
  String dquote (escapeString s) +:+ String dquote "".

Definition sepBy (sep : string) (parts : list string) : string :=
  match parts with
  | [] => ""
  | p :: ps => fold_left (fun acc q => acc +:+ sep +:+ q) ps p
  end.

Fixpoint render (j : JValue) : string :=
  match j with
  | JNull => "null"
  | JBool true => "true"
  | JBool false => "false"
  | JNumber n => pretty n
  | JString s => quote s
  | JArray l => "[" +:+ sepBy "," (map render l) +:+ "]"
  | JObject fs =>
      "{" +:+ sepBy "," (map (fun kv => quote (fst kv) +:+ ":" +:+ render (snd kv)) fs)
      +:+ "}"
  end.

(** [string(b)] for a text. *)
Definition textString (t : Text) : string :=
  match t with
  | Raw s => s
  | Doc j => render j
  end.

(** ** The Redis server behind [m.client]

    Only what the library uses: string values with an expiration, sets,
    key listing by pattern, and publish/subscribe.  The server always
    answers; a reply is an error only for a missing key or a key of the
    wrong kind. *)

Inductive RedisValue :=
| RString (v : Text)
| RSet (members : gset string).

Record Entry := mkEntry {
  value : RedisValue;
  ttl : option Z   (* time to live given by the last write, in ns *)
}.

Record Redis := mkRedis {
  kv : gmap string Entry;
  published : list (string * Text);   (* (topic, payload), oldest first *)
  subscribed : list (list string)     (* one entry per Subscribe call *)
}.

(** [time.Duration] counts nanoseconds. *)
Definition Second : Z := 1000000000.
Definition DefaultTTL : Z := 5 * Second.
Definition DefaultHBInterval : Z := 2 * Second.

(** SET key value, with EX/PX when the expiration is positive. *)
Definition redisSet (key : string) (v : Text) (expiration : Z) (r : Redis)
  : Redis :=
  let e := mkEntry (RString v) (if 0 <? expiration then Some expiration else None) in
  mkRedis (<[key := e]> (kv r)) (published r) (subscribed r).

(** SADD key members: refused without members and on a key that holds a
    string. *)
Definition redisSAdd (key : string) (members : list string) (r : Redis)
  : Redis :=
  match members with
  | [] => r
  | _ =>
      match kv r !! key with
      | None =>
          mkRedis (<[key := mkEntry (RSet (list_to_set members)) None]> (kv r))
            (published r) (subscribed r)
      | Some (mkEntry (RSet old) t) =>
          mkRedis (<[key := mkEntry (RSet (old ∪ list_to_set members)) t]> (kv r))
            (published r) (subscribed r)
      | Some (mkEntry (RString _) _) => r
      end
  end.

(** EXPIRE key: a key that exists gets the new time to live (and is
    deleted when that is not positive). *)
Definition redisExpire (key : string) (expiration : Z) (r : Redis) : Redis :=
  match kv r !! key with
  | None => r
  | Some (mkEntry v _) =>
      if 0 <? expiration
      then mkRedis (<[key := mkEntry v (Some expiration)]> (kv r))
             (published r) (subscribed r)
      else mkRedis (delete key (kv r)) (published r) (subscribed r)
  end.

Definition redisPublish (topic : string) (payload : Text) (r : Redis) : Redis :=
  mkRedis (kv r) (published r ++ [(topic, payload)]) (subscribed r).

Definition redisSubscribe (topics : list string) (r : Redis) : Redis :=
  mkRedis (kv r) (published r) (subscribed r ++ [topics]).

(** Glob matching for patterns made of literal bytes and [*]. *)
Definition star : ascii := ascii_of_N 42.

Fixpoint glob (p s : string) {struct p} : bool :=
  match p with
  | EmptyString => match s with EmptyString => true | _ => false end
  | String c p' =>
      if Ascii.eqb c star then
        (fix skip (s : string) : bool :=
           glob p' s
           || match s with
              | EmptyString => false
              | String _ s' => skip s'
              end) s
      else
        match s with
        | String d s' => Ascii.eqb c d && glob p' s'
        | EmptyString => false
        end
  end.

(** KEYS pattern. *)
Definition redisKeys (pattern : string) (r : Redis) : list string :=
  filter (fun k => glob pattern k = true) (map fst (map_to_list (kv r))).

(** GET key. *)
Definition redisGet (key : string) (r : Redis) : result Text :=
  match kv r !! key with
  | None => Err ErrRedisNil
  | Some (mkEntry (RString v) _) => OK v
  | Some (mkEntry (RSet _) _) => Err ErrWrongType
  end.

(** ** The process: registry, scheduler, goroutines, environment *)

Inductive Goroutine :=
| DispatchLoop (channels : list string) (svc : Service) (handler : MessageHandler)
| ResponseWaiter (topic : string) (retch : chan)
| TimeoutSender (timeout : Z) (retch : chan).

(** A scheduled task: its interval and the service its closure
    re-publishes. *)
Record Task := mkTask {
  Interval : Z;
  TaskFunc : Service
}.

(** [map[service_name]map[service_id]*Service]: the pointers stored are
    never nil and the records behind them are never written after
    construction, so the map holds the records. *)
Record Morpheus := mkMorpheus {
  Services : gmap string (gmap string Service);
  Scheduler : gmap string Task
}.

(** [randomId] is defined outside [lib.go]: the identifiers it returns,
    like the values of [rand.Int], the clock and the outbound address of
    the machine, are inputs of the model. *)
Record World := mkWorld {
  self : Morpheus;
  redis : Redis;
  goroutines : list Goroutine;       (* started so far, oldest first *)
  chansMade : nat;                   (* channels made so far *)
  chansClosed : gset nat;
  ids : nat -> string;               (* results of [randomId], in order *)
  idsDrawn : nat;
  ints : nat -> N;                   (* results of [rand.Int], in order *)
  intsDrawn : nat;
  clock : Z;                         (* [time.Now().Unix()] *)
  outboundIp : string
}.

Definition withSelf (f : Morpheus -> Morpheus) (w : World) : World :=
  mkWorld (f (self w)) (redis w) (goroutines w) (chansMade w) (chansClosed w)
    (ids w) (idsDrawn w) (ints w) (intsDrawn w) (clock w) (outboundIp w).

Definition withRedis (f : Redis -> Redis) (w : World) : World :=
  mkWorld (self w) (f (redis w)) (goroutines w) (chansMade w) (chansClosed w)
    (ids w) (idsDrawn w) (ints w) (intsDrawn w) (clock w) (outboundIp w).

(** A method is a function of the world that returns a value and the
    world it leaves. *)
Definition Go (A : Type) : Type := World -> A * World.

Definition ret {A : Type} (a : A) : Go A := fun w => (a, w).

Definition bind {A B : Type} (c : Go A) (k : A -> Go B) : Go B :=
  fun w => let (a, w') := c w in k a w'.

Notation "x <- c ;; k" := (bind c (fun x => k))
  (at level 100, c at next level, right associativity).
Notation "c ;;; k" := (bind c (fun _ => k))
  (at level 100, right associativity).

Definition modify (f : World -> World) : Go unit := fun w => (tt, f w).

Definition randomId : Go string := fun w =>
  (ids w (idsDrawn w),
   mkWorld (self w) (redis w) (goroutines w) (chansMade w) (chansClosed w)
     (ids w) (S (idsDrawn w)) (ints w) (intsDrawn w) (clock w) (outboundIp w)).

Definition randInt : Go N := fun w =>
  (ints w (intsDrawn w),
   mkWorld (self w) (redis w) (goroutines w) (chansMade w) (chansClosed w)
     (ids w) (idsDrawn w) (ints w) (S (intsDrawn w)) (clock w) (outboundIp w)).

Definition timeNowUnix : Go Z := fun w => (clock w, w).

(** [make(chan *Message)] *)
Definition makeChan : Go chan := fun w =>
  (Some (chansMade w),
   mkWorld (self w) (redis w) (goroutines w) (S (chansMade w)) (chansClosed w)
     (ids w) (idsDrawn w) (ints w) (intsDrawn w) (clock w) (outboundIp w)).

(** [go func() { ... }()] *)
Definition spawn (g : Goroutine) : Go unit := fun w =>
  (tt,
   mkWorld (self w) (redis w) (goroutines w ++ [g]) (chansMade w) (chansClosed w)
     (ids w) (idsDrawn w) (ints w) (intsDrawn w) (clock w) (outboundIp w)).

Definition whenGo (b : bool) (c : Go unit) : Go unit :=
  if b then c else ret tt.

(** ** Keys *)

(** [Service.Key] *)
Definition Key (s : Service) : string :=
  "morpheus:service:" +:+ Name s +:+ ":" +:+ Id s.

(** [Service.getBaseKey] *)
Definition Service_getBaseKey (s : Service) : string :=
  "morpheus:service:" +:+ Name s.

Definition colon : ascii := ascii_of_N 58.

(** [strings.Split(s, ":")] *)
Fixpoint Split (s : string) : list string :=
  match s with
  | EmptyString => [EmptyString]
  | String c s' =>
      if Ascii.eqb c colon then EmptyString :: Split s'
      else
        match Split s' with
        | part :: parts => String c part :: parts
        | [] => [String c EmptyString]
        end
  end.

(** [strings.Join(parts, ":")] *)
Definition Join (parts : list string) : string := sepBy ":" parts.

(** The package function [getBaseKey]; [None] is the panic of
    [parts[:3]] on fewer than three parts. *)
Definition getBaseKey (key : string) : option string :=
  let parts := Split key in
  if (3 <=? length parts)%nat then Some (Join (take 3 parts)) else None.

(** [getServiceName]; [None] is the panic of [parts[2]]. *)
Definition getServiceName (key : string) : option string :=
  Split key !! 2%nat.

(** ** The local registry *)

(** [Services.Add] *)
Definition Add (svc : Service) (s : gmap string (gmap string Service))
  : gmap string (gmap string Service) :=
  match s !! Name svc with
  | None => <[Name svc := {[Id svc := svc]}]> s
  | Some inner => <[Name svc := <[Id svc := svc]> inner]> s
  end.

Inductive outcome (A : Type) :=
| Returns (a : A)
| Panics (reason : string).
Arguments Returns {A} a.
Arguments Panics {A} reason.

(** [close(ch)] on the set of closed channels. *)
Definition closeChan (ch : chan) (closed : gset nat) : outcome (gset nat) :=
  match ch with
  | None => Panics "close of nil channel"
  | Some c =>
      if decide (c ∈ closed) then Panics "close of closed channel"
      else Returns ({[c]} ∪ closed)
  end.

(** [delete(s[name], id)]: deleting from the nil map of an absent name
    does nothing. *)
Definition deleteInner (name id : string) (s : gmap string (gmap string Service))
  : gmap string (gmap string Service) :=
  match s !! name with
  | None => s
  | Some inner => <[name := delete id inner]> s
  end.

(** [Services.Remove]: first the close, then the delete. *)
Definition Remove (svc : Service) (s : gmap string (gmap string Service))
    (closed : gset nat)
  : outcome (gmap string (gmap string Service) * gset nat) :=
  match closeChan (LivenessChannel svc) closed with
  | Panics reason => Panics reason
  | Returns closed' => Returns (deleteInner (Name svc) (Id svc) s, closed')
  end.

(** [m.serviceExists]: [m.Services[name][id] != nil]. *)
Definition serviceExists (name id : string) (m : Morpheus) : bool :=
  match Services m !! name with
  | None => false
  | Some inner =>
      match inner !! id with
      | None => false
      | Some _ => true
      end
  end.

(** [m.DeleteService]: [delete(m.Services, svc.Id)]. *)
Definition DeleteService (svc : Service) (m : Morpheus) : Morpheus :=
  mkMorpheus (delete (Id svc) (Services m)) (Scheduler m).

(** [m.internalListServices] *)
Definition internalListServices (m : Morpheus) : Z :=
  Z.of_nat (size (Services m)).

(** [Scheduler.AddWithID]: refused when the id is taken. *)
Definition AddWithID (id : string) (t : Task) (m : Morpheus)
  : result unit * Morpheus :=
  match Scheduler m !! id with
  | Some _ => (Err ErrIDInUse, m)
  | None => (OK tt, mkMorpheus (Services m) (<[id := t]> (Scheduler m)))
  end.

(** ** Presence, health and routes *)

(** [m.UpdatePresence] *)
Definition UpdatePresence (svc : Service) : Go unit :=
  let key := Key svc +:+ ":presence" in
  modify (withRedis (redisSet key (Raw (Id svc)) DefaultTTL)).

(** [m.UpdateHealth]; [json.Marshal] of a [Service] cannot fail. *)
Definition UpdateHealth (svc : Service) : Go unit :=
  let key := Key svc +:+ ":health" in
  let jSvc := marshalService svc in
  modify (withRedis (redisSet key (Doc jSvc) DefaultTTL)).

(** [m.UpdateRoutes] *)
Definition UpdateRoutes (svc : Service) : Go unit :=
  let key := Key svc +:+ ":routes" in
  let routes := map Route (Routes svc) in
  modify (withRedis (redisSAdd key routes)) ;;;
  modify (withRedis (redisExpire key DefaultTTL)).

(** [m.UpdateService] *)
Definition UpdateService (svc : Service) : Go unit :=
  UpdatePresence svc ;;;
  UpdateHealth svc ;;;
  UpdateRoutes svc.

Definition getIpAddress : Go string := fun w => (outboundIp w, w).

(** [m.RegisterService] *)
Definition RegisterService (name : string) (port : Z) (routes : ServiceRoutes)
    (handler : option MessageHandler) : Go (result Service) :=
  svcId <- randomId ;;
  fun w =>
    if serviceExists name svcId (self w) then (Err ErrServiceExists, w)
    else
      (ip <- getIpAddress ;;
       let svc := mkService svcId name ip port routes None in
       modify (withSelf (fun m => mkMorpheus (Add svc (Services m)) (Scheduler m))) ;;;
       UpdateService svc ;;;
       let channels := [Key svc; Service_getBaseKey svc] in
       match handler with
       | Some h => spawn (DispatchLoop channels svc h)
       | None => ret tt
       end ;;;
       (* a refused task is logged, nothing else *)
       modify (withSelf (fun m => snd (AddWithID (Id svc) (mkTask DefaultHBInterval svc) m))) ;;;
       ret (OK svc)) w.

(** ** Discovery *)

(** [m.FetchService] *)
Definition FetchService (name id : string) (r : Redis) : result Service :=
  let key := "morpheus:service:" +:+ name +:+ ":" +:+ id +:+ ":health" in
  match redisGet key r with
  | Err e => Err e
  | OK val => unmarshalService val
  end.

(** The loop of [ListServices] over the presence keys; a key whose value
    or health record cannot be read is skipped. *)
Fixpoint listLoop (r : Redis) (keys : list string) (svcs : list Service)
  : outcome (list Service) :=
  match keys with
  | [] => Returns svcs
  | key :: rest =>
      match redisGet key r with
      | Err _ => listLoop r rest svcs
      | OK val =>
          match getServiceName key with
          | None => Panics "index out of range"
          | Some svcName =>
              match FetchService svcName (textString val) r with
              | Err _ => listLoop r rest svcs
              | OK svc => listLoop r rest (svcs ++ [svc])
              end
          end
      end
  end.

Definition idLess (a b : Service) : bool := String.ltb (Id a) (Id b).

(** [m.ListServices] *)
Definition ListServices (r : Redis) : outcome (list Service) :=
  let keys := redisKeys "morpheus:service:*:presence" r in
  if (0 <? length keys)%nat then
    match listLoop r keys [] with
    | Panics reason => Panics reason
    | Returns svcs => Returns (sortStable idLess svcs)
    end
  else Returns [].

(** [m.ResolveService]; [rand.Int] is drawn only when something matches. *)
Definition ResolveService (path : string) : Go (outcome (result Service)) :=
  fun w =>
    match ListServices (redis w) with
    | Panics reason => (Panics reason, w)
    | Returns svcs =>
        let out := filter (fun svc => Match svc path = true) svcs in
        if (0 <? length out)%nat then
          let (r, w') := randInt w in
          let idx := N.to_nat (r mod N.of_nat (length out)) in
          match out !! idx with
          | Some svc => (Returns (OK svc), w')
          | None => (Panics "index out of range", w')
          end
        else (Returns (Err ErrServiceNotFound), w)
    end.

(** ** Messaging *)

(** The message [m.Message] constructs from its arguments, the fresh id
    and the clock.  [responseTo] is a [*string]: [None] is nil. *)
Definition buildMessage (channel from to route : string) (payload : GoValue)
    (responseTo : option string) (msgId : string) (now : Z) : Msg.Message :=
  let message := Msg.mkMessage now msgId "" channel route from to payload in
  match responseTo with
  | None =>
      Msg.mkMessage now msgId (channel +:+ ":response:" +:+ Msg.MsgId message)
        channel route from to payload
  | Some _ => message
  end.

(** [m.Message]: a message that cannot be serialized is logged and
    dropped; otherwise a request first subscribes to its response channel
    and starts the waiter, and the text is published to [channel]. *)
Definition Message (channel from to route : string) (payload : GoValue)
    (responseTo : option string) (retch : chan) : Go unit :=
  msgId <- randomId ;;
  now <- timeNowUnix ;;
  let message := buildMessage channel from to route payload responseTo msgId now in
  match marshalMessage message with
  | Err _ => ret tt
  | OK jMsg =>
      match responseTo with
      | None =>
          modify (withRedis (redisSubscribe [Msg.ResponseChannel message])) ;;;
          spawn (ResponseWaiter (Msg.ResponseChannel message) retch)
      | Some _ => ret tt
      end ;;;
      modify (withRedis (redisPublish channel (Doc jMsg)))
  end.

(** [m.RPC] *)
Definition RPC (from : string) (service : Service) (route : string)
    (payload : GoValue) : Go chan :=
  retch <- makeChan ;;
  Message "rpc" from (Key service) route payload None retch ;;;
  ret retch.

(** [m.RPCWithTimeout] *)
Definition RPCWithTimeout (from : string) (service : Service) (route : string)
    (payload : GoValue) (timeout : Z) : Go chan :=
  retch <- makeChan ;;
  Message (Key service) from (Key service) route payload None retch ;;;
  spawn (TimeoutSender timeout retch) ;;;
  ret retch.

(** [m.Respond] *)
Definition Respond (msg : Msg.Message) (payload : GoValue) : Go unit :=
  Message (Msg.ResponseChannel msg) (Msg.To msg) (Msg.From msg) (Msg.Route msg)
    payload (Some (Msg.ResponseChannel msg)) None.

(** [Init]: an empty registry and an empty scheduler. *)
Definition Init : Morpheus := mkMorpheus ∅ ∅.

(** A world to run examples in: nothing registered, an empty store, every
    random id equal to ["id0"]. *)
Definition quietWorld : World :=
  mkWorld Init (mkRedis ∅ [] []) [] 0 ∅ (fun _ => "id0") 0 (fun _ => 7%N) 0
    1700000000 "10.0.0.1".

(** [m.FlushDB]: FLUSHDB removes every key; subscriptions stay. *)
Definition redisFlushDB (r : Redis) : Redis :=
  mkRedis ∅ (published r) (subscribed r).

Definition FlushDB : Go unit := modify (withRedis redisFlushDB).

(** What the health record keeps of a service: the fields marked
    [json:"-"] (handlers, liveness channel) are not part of it. *)
Definition stripRoute (r : ServiceRoute) : ServiceRoute :=
  mkServiceRoute (Route r) None.

Definition stripService (s : Service) : Service :=
  mkService (Id s) (Name s) (IpAddress s) (Port s) (map stripRoute (Routes s)) None.

(** The three keys of a service in the store. *)
Definition presenceKey (s : Service) : string := Key s +:+ ":presence".
Definition healthKey (s : Service) : string := Key s +:+ ":health".
Definition routesKey (s : Service) : string := Key s +:+ ":routes".

(** A string without a colon. *)
Fixpoint colonFree (s : string) : bool :=
  match s with
  | EmptyString => true
  | String c s' => negb (Ascii.eqb c colon) && colonFree s'
  end.

(** What SADD and EXPIRE make of the entry under their key. *)
Definition saddEntry (members : list string) (old : option Entry) : option Entry :=
  match members with
  | [] => old
  | _ =>
      match old with
      | None => Some (mkEntry (RSet (list_to_set members)) None)
      | Some (mkEntry (RSet s) t) => Some (mkEntry (RSet (s ∪ list_to_set members)) t)
      | Some (mkEntry (RString v) t) => Some (mkEntry (RString v) t)
      end
  end.

Definition expireEntry (expiration : Z) (old : option Entry) : option Entry :=
  match old with
  | None => None
  | Some (mkEntry v _) =>
      if 0 <? expiration then Some (mkEntry v (Some expiration)) else None
  end.

(** The members of the set under a key; none when the key is absent or
    holds a string. *)
Definition members (key : string) (r : Redis) : gset string :=
  match kv r !! key with
  | Some (mkEntry (RSet s) _) => s
  | _ => ∅
  end.

(** The double index [s[name][id]]; [None] is the nil pointer a missing
    entry reads as. *)
Definition findService (name id : string) (s : gmap string (gmap string Service))
  : option Service :=
  match s !! name with
  | None => None
  | Some inner => inner !! id
  end.

(** The world after [make(chan *Message)]. *)
Definition afterMakeChan (w : World) : World := snd (makeChan w).

(** The order of [sort.SliceStable] in [ListServices], non-strict. *)
Definition idLe (a b : Service) : Prop := String.leb (Id a) (Id b) = true.

(** Example data. *)
Definition echoService : Service :=
  mkService "id0" "echo" "10.0.0.1" 80 [mkServiceRoute "/echo" None] None.


Definition registered : World :=
  snd (RegisterService "echo" 80 [mkServiceRoute "/echo" None] None quietWorld).

(** * Properties *)

(** ** The stable sort permutes its input *)

Section StableSortFacts.
Context {A : Type} (less : A -> A -> bool).

Lemma insertStable_perm x l : Permutation (x :: l) (insertStable less x l).
Proof.
  induction l as [|y l IH]; simpl; [reflexivity|].
  destruct (less y x); [|reflexivity].
  rewrite perm_swap. now apply perm_skip.
Qed.

Lemma sortStable_perm l : Permutation l (sortStable less l).
Proof.
  induction l as [|x l IH]; simpl; [constructor|].
  rewrite <- insertStable_perm. now apply perm_skip.
Qed.
End StableSortFacts.

(** ** Facts about prefixes and matching *)

Lemma length_app_string (p rest : string) :
  String.length (p +:+ rest) = (String.length p + String.length rest)%nat.
Proof.
  induction p as [|c p IH]; [reflexivity|].
  change (S (String.length (p +:+ rest))
          = S (String.length p + String.length rest)).
  now rewrite IH.
Qed.

Lemma app_assoc_string (a b c : string) : (a +:+ b) +:+ c = a +:+ b +:+ c.
Proof.
  induction a as [|x a IH]; [reflexivity|].
  change (String x ((a +:+ b) +:+ c) = String x (a +:+ b +:+ c)).
  now rewrite IH.
Qed.

Lemma substring_app_length (p rest : string) :
  substring 0 (String.length p) (p +:+ rest) = p.
Proof.
  induction p as [|c p IH]; simpl.
  - now destruct rest.
  - now rewrite IH.
Qed.

Lemma substring_prefix_split (n : nat) (s : string) :
  (n <= String.length s)%nat ->
  exists rest, s = substring 0 n s +:+ rest.
Proof.
  revert s. induction n as [|n IH]; intros s Hn.
  - exists s. now destruct s.
  - destruct s as [|c s]; simpl in *; [lia|].
    destruct (IH s) as [rest Hrest]; [lia|].
    exists rest.
    change (String c s = String c (substring 0 n s +:+ rest)).
    now f_equal.
Qed.

Lemma HasPrefix_spec (s p : string) :
  HasPrefix s p = true <-> exists rest, s = p +:+ rest.
Proof.
  unfold HasPrefix. rewrite andb_true_iff, Nat.leb_le, String.eqb_eq. split.
  - intros [Hlen Hsub].
    destruct (substring_prefix_split _ _ Hlen) as [rest Hrest].
    exists rest. now rewrite Hsub in Hrest.
  - intros [rest ->]. split.
    + rewrite length_app_string. lia.
    + apply substring_app_length.
Qed.

Lemma matchRoutes_spec (routes : ServiceRoutes) (path : string) :
  matchRoutes routes path = true <->
  exists route, In route routes /\ HasPrefix path (Route route) = true.
Proof.
  induction routes as [|r routes IH]; simpl.
  - split; [discriminate | intros (? & [] & _)].
  - destruct (HasPrefix path (Route r)) eqn:Hr.
    + split; [|reflexivity]. intros _. exists r. auto.
    + rewrite IH. split.
      * intros (x & Hin & Hx). exists x. auto.
      * intros (x & [->|Hin] & Hx); [congruence|]. exists x. auto.
Qed.

Lemma matchRoutes_perm (r1 r2 : ServiceRoutes) (path : string) :
  Permutation r1 r2 -> matchRoutes r1 path = matchRoutes r2 path.
Proof.
  intros Hp. apply eq_true_iff_eq. rewrite !matchRoutes_spec.
  split; intros (x & Hin & Hx); exists x; split; auto.
  - eapply Permutation_in; eauto.
  - eapply Permutation_in; [symmetry|]; eauto.
Qed.

(** C8: [Match] holds exactly when some entry of [Routes] has its [Route]
    as a prefix of the path; the answer is the same for every permutation
    of the route table, and in particular for the table sorted by the
    [Less] comparator (descending route length). *)
Theorem Match_order_independent (s : Service) (path : string) :
  (Match s path = true <->
     exists route rest, In route (Routes s) /\ path = Route route +:+ rest)
  /\ (forall routes', Permutation (Routes s) routes' ->
        Match (withRoutes s routes') path = Match s path)
  /\ Match (withRoutes s (sortRoutes (Routes s))) path = Match s path.
Proof.
  unfold Match. simpl. repeat split.
  - rewrite matchRoutes_spec. intros (r & Hin & Hr).
    apply HasPrefix_spec in Hr as [rest ->]. eauto.
  - intros (r & rest & Hin & ->). apply matchRoutes_spec.
    exists r. split; [assumption|]. apply HasPrefix_spec. eauto.
  - intros routes' Hp. symmetry. now apply matchRoutes_perm.
  - symmetry. apply matchRoutes_perm, sortStable_perm.
Qed.

(** ** Discovery never panics and resolves to a matching service *)

Lemma glob_literal (c : ascii) (p s : string) :
  Ascii.eqb c star = false ->
  glob (String c p) s = true ->
  exists s', s = String c s' /\ glob p s' = true.
Proof.
  intros Hc. simpl. rewrite Hc. destruct s as [|d s']; [discriminate|].
  rewrite andb_true_iff, Ascii.eqb_eq. intros [-> Hg]. eauto.
Qed.

Lemma Split_nonempty (s : string) : exists part parts, Split s = part :: parts.
Proof.
  induction s as [|c s IH]; simpl; [eauto|].
  destruct (Ascii.eqb c colon); [eauto|].
  destruct IH as (part & parts & ->). eauto.
Qed.

Lemma presence_key_has_name (key : string) :
  glob "morpheus:service:*:presence" key = true ->
  exists name, getServiceName key = Some name.
Proof.
  intros H.
  repeat (apply glob_literal in H as (? & -> & H); [|reflexivity]).
  unfold getServiceName.
  match type of H with glob _ ?rest = true =>
    destruct (Split_nonempty rest) as (part & parts & Hs)
  end.
  simpl. rewrite Hs. simpl. eauto.
Qed.

Lemma listLoop_returns (r : Redis) (keys : list string) (acc : list Service) :
  Forall (fun k => glob "morpheus:service:*:presence" k = true) keys ->
  exists svcs, listLoop r keys acc = Returns svcs.
Proof.
  intros Hk. revert acc. induction Hk as [|key keys Hkey _ IH]; intros acc.
  - simpl. eauto.
  - simpl. destruct (redisGet key r); [|apply IH].
    destruct (presence_key_has_name key Hkey) as [name ->].
    destruct (FetchService _ _ _); apply IH.
Qed.

Lemma ListServices_returns (r : Redis) :
  exists svcs, ListServices r = Returns svcs.
Proof.
  unfold ListServices.
  destruct (0 <? _)%nat; [|eauto].
  destruct (listLoop_returns r (redisKeys "morpheus:service:*:presence" r) [])
    as [svcs ->]; [|eauto].
  unfold redisKeys. apply Forall_forall. intros k Hk.
  apply list_elem_of_filter in Hk. tauto.
Qed.

(** C1: [ResolveService] fails exactly when no listed service matches the
    path; a service it returns is one of the listed services that match,
    and has a route that is a prefix of the path. *)
Theorem ResolveService_matches (path : string) (w : World) :
  exists svcs res,
    ListServices (redis w) = Returns svcs
    /\ fst (ResolveService path w) = Returns res
    /\ (isErr res = true <-> forall svc, svc ∈ svcs -> Match svc path = false)
    /\ (forall svc, res = OK svc ->
          svc ∈ filter (fun s => Match s path = true) svcs
          /\ exists route rest,
               In route (Routes svc) /\ path = Route route +:+ rest).
Proof.
  destruct (ListServices_returns (redis w)) as [svcs Hl].
  exists svcs. unfold ResolveService. rewrite Hl.
  set (out := filter (fun s => Match s path = true) svcs).
  destruct (0 <? length out)%nat eqn:Hlen.
  - apply Nat.ltb_lt in Hlen.
    destruct (randInt w) as [r w'] eqn:Hr.
    assert (Hidx : (N.to_nat (r mod N.of_nat (length out)) < length out)%nat).
    { pose proof (N.mod_upper_bound r (N.of_nat (length out))). lia. }
    destruct (lookup_lt_is_Some_2 out _ Hidx) as [svc Hsvc].
    rewrite Hsvc. exists (OK svc). simpl.
    assert (Hin : svc ∈ out) by (eapply list_elem_of_lookup_2; eauto).
    split; [reflexivity|]. split; [reflexivity|]. split.
    + split; [discriminate|]. intros Hno.
      apply list_elem_of_filter in Hin as [Hm Hin].
      rewrite (Hno _ Hin) in Hm. discriminate.
    + intros svc' [= <-]. split; [assumption|].
      apply list_elem_of_filter in Hin as [Hm _].
      apply matchRoutes_spec in Hm as (route & Hroute & Hp).
      apply HasPrefix_spec in Hp as [rest ->]. eauto.
  - exists (Err ErrServiceNotFound). simpl.
    split; [reflexivity|]. split; [reflexivity|]. split; [|discriminate].
    split; [|reflexivity]. intros _ svc Hin.
    destruct (Match svc path) eqn:Hm; [|reflexivity].
    assert (svc ∈ out) as Ho by (apply list_elem_of_filter; auto).
    apply Nat.ltb_ge in Hlen. destruct out; [inversion Ho | simpl in Hlen; lia].
Qed.

(** ** The local registry *)

Lemma Add_lookup (svc : Service) (s : gmap string (gmap string Service)) :
  exists inner, Add svc s !! Name svc = Some inner /\ inner !! Id svc = Some svc.
Proof.
  unfold Add. destruct (s !! Name svc) as [inner|].
  - exists (<[Id svc := svc]> inner). now rewrite !lookup_insert_eq.
  - exists {[Id svc := svc]}. now rewrite lookup_insert_eq, lookup_singleton_eq.
Qed.

Lemma serviceExists_spec (name id : string) (m : Morpheus) :
  serviceExists name id m = true <->
  exists inner svc, Services m !! name = Some inner /\ inner !! id = Some svc.
Proof.
  unfold serviceExists. destruct (Services m !! name) as [inner|].
  - destruct (inner !! id) as [svc|] eqn:Hid.
    + split; [eauto|reflexivity].
    + split; [discriminate|]. intros (? & ? & [= <-] & ?). congruence.
  - split; [discriminate|]. intros (? & ? & ? & _). discriminate.
Qed.

(** What [RegisterService] leaves behind when the id is free. *)
Lemma RegisterService_fresh (name : string) (port : Z) (routes : ServiceRoutes)
    (handler : option MessageHandler) (w : World) :
  serviceExists name (ids w (idsDrawn w)) (self w) = false ->
  let svc := mkService (ids w (idsDrawn w)) name (outboundIp w) port routes None in
  fst (RegisterService name port routes handler w) = OK svc
  /\ Services (self (snd (RegisterService name port routes handler w)))
     = Add svc (Services (self w)).
Proof.
  intros Hfree. unfold RegisterService, bind, randomId. simpl.
  rewrite Hfree. destruct handler; simpl; unfold AddWithID; simpl;
    destruct (Scheduler (self w) !! _); auto.
Qed.

Lemma RegisterService_taken (name : string) (port : Z) (routes : ServiceRoutes)
    (handler : option MessageHandler) (w : World) :
  serviceExists name (ids w (idsDrawn w)) (self w) = true ->
  fst (RegisterService name port routes handler w) = Err ErrServiceExists
  /\ self (snd (RegisterService name port routes handler w)) = self w
  /\ redis (snd (RegisterService name port routes handler w)) = redis w.
Proof.
  intros Htaken. unfold RegisterService, bind, randomId. simpl.
  now rewrite Htaken.
Qed.

(** C2: [RegisterService] returns an error exactly when the registry
    already holds a service under the given name and the freshly drawn id;
    otherwise it returns a service with that id and the given name, port
    and routes, and the registry then holds this service under (name,
    id). *)
Theorem RegisterService_duplicate_check (name : string) (port : Z)
    (routes : ServiceRoutes) (handler : option MessageHandler) (w : World) :
  let id := ids w (idsDrawn w) in
  let res := fst (RegisterService name port routes handler w) in
  let after := self (snd (RegisterService name port routes handler w)) in
  (isErr res = true <->
     exists inner old, Services (self w) !! name = Some inner
                       /\ inner !! id = Some old)
  /\ (forall svc, res = OK svc ->
        Id svc = id /\ Name svc = name /\ Port svc = port
        /\ Routes svc = routes
        /\ exists inner, Services after !! name = Some inner
                         /\ inner !! id = Some svc).
Proof.
  intros id res after. subst res after.
  rewrite <- serviceExists_spec. fold id.
  destruct (serviceExists name id (self w)) eqn:Hex.
  - destruct (RegisterService_taken name port routes handler w Hex) as (-> & _).
    split; [tauto|discriminate].
  - destruct (RegisterService_fresh name port routes handler w Hex) as (-> & ->).
    split; [split; discriminate|].
    intros svc [= <-]. simpl. repeat split.
    apply (Add_lookup (mkService id name (outboundIp w) port routes None)).
Qed.

(** C9: a service returned by [RegisterService] has a nil
    [LivenessChannel], and [Services.Remove] applied to it stops in the
    close of the nil channel, which comes before the delete. *)
Theorem Remove_registered_closes_nil (name : string) (port : Z)
    (routes : ServiceRoutes) (handler : option MessageHandler) (w : World)
    (svc : Service) :
  fst (RegisterService name port routes handler w) = OK svc ->
  LivenessChannel svc = None
  /\ forall s closed, Remove svc s closed = Panics "close of nil channel".
Proof.
  intros Hreg.
  destruct (serviceExists name (ids w (idsDrawn w)) (self w)) eqn:Hex.
  - destruct (RegisterService_taken name port routes handler w Hex) as (He & _).
    congruence.
  - destruct (RegisterService_fresh name port routes handler w Hex) as (Hok & _).
    rewrite Hok in Hreg. injection Hreg as <-. split; [reflexivity|].
    intros s closed. reflexivity.
Qed.

Lemma Remove_registered_closes_nil_witness :
  exists svc,
    fst (RegisterService "echo" 80 [mkServiceRoute "/echo" None] None quietWorld)
    = OK svc
    /\ LivenessChannel svc = None
    /\ forall s closed, Remove svc s closed = Panics "close of nil channel".
Proof.
  eexists. split; [reflexivity|].
  apply (Remove_registered_closes_nil "echo" 80 [mkServiceRoute "/echo" None]
           None quietWorld).
  reflexivity.
Defined.

(** C10: [DeleteService] deletes the entry of the outer map whose key is
    the service's id, not its name: no other name is touched, and when
    the id is not a name of the registry nothing changes, so the service
    stays registered under (name, id). *)
Theorem DeleteService_keyed_by_id (svc : Service) (m : Morpheus) :
  Services (DeleteService svc m) = delete (Id svc) (Services m)
  /\ (forall name, name <> Id svc ->
        Services (DeleteService svc m) !! name = Services m !! name)
  /\ (Id svc ∉ dom (Services m) ->
        DeleteService svc m = m
        /\ forall inner, Services m !! Name svc = Some inner ->
             inner !! Id svc = Some svc ->
             Services (DeleteService svc m) !! Name svc = Some inner).
Proof.
  split; [reflexivity|]. split.
  - intros name Hne. simpl. now apply lookup_delete_ne.
  - intros Hnot. apply not_elem_of_dom in Hnot.
    assert (DeleteService svc m = m) as ->.
    { unfold DeleteService. rewrite delete_id by assumption. now destruct m. }
    auto.
Qed.

Lemma DeleteService_keyed_by_id_witness :
  let svc := mkService "id0" "echo" "10.0.0.1" 80 [mkServiceRoute "/echo" None] None in
  let m := mkMorpheus (Add svc ∅) ∅ in
  DeleteService svc m = m
  /\ forall inner, Services m !! Name svc = Some inner ->
       inner !! Id svc = Some svc ->
       Services (DeleteService svc m) !! Name svc = Some inner.
Proof.
  intros svc m.
  apply (proj2 (proj2 (DeleteService_keyed_by_id svc m))).
  apply not_elem_of_dom. reflexivity.
Defined.

(** ** Presence *)

(** C6, as stated, fails: the key written does not start with
    [service:] but with [morpheus:service:]. *)
Lemma UpdatePresence_key_not_bare :
  kv (redis (snd (UpdatePresence echoService quietWorld)))
    !! "service:echo:id0:presence" = None
  /\ kv (redis (snd (UpdatePresence echoService quietWorld)))
     <> <["service:echo:id0:presence" :=
           mkEntry (RString (Raw "id0")) (Some (5 * Second))]>
          (kv (redis quietWorld)).
Proof.
  split; [reflexivity|].
  intros H.
  apply (f_equal (fun m => m !! "service:echo:id0:presence")) in H.
  rewrite lookup_insert_eq in H. discriminate H.
Qed.

(** C6, amended: a presence refresh writes exactly the key
    [morpheus:service:<name>:<id>:presence], with the service id as value
    and a time to live of five seconds, and changes nothing else. *)
Theorem UpdatePresence_writes_presence_key (svc : Service) (w : World) :
  let key := "morpheus:service:" +:+ Name svc +:+ ":" +:+ Id svc +:+ ":presence" in
  let w' := snd (UpdatePresence svc w) in
  kv (redis w')
  = <[key := mkEntry (RString (Raw (Id svc))) (Some (5 * 1000000000))]>
      (kv (redis w))
  /\ published (redis w') = published (redis w)
  /\ subscribed (redis w') = subscribed (redis w)
  /\ self w' = self w
  /\ goroutines w' = goroutines w.
Proof.
  unfold UpdatePresence, Key. simpl. repeat split.
  now rewrite !app_assoc_string.
Qed.

(** ** Messaging *)

Lemma marshalMessage_supported (m : Msg.Message) :
  supported (Msg.Payload m) = true ->
  marshalMessage m = OK (JObject (messageFields m)).
Proof. unfold marshalMessage. now intros ->. Qed.

Lemma buildMessage_payload channel from to route payload responseTo msgId now :
  Msg.Payload (buildMessage channel from to route payload responseTo msgId now)
  = payload.
Proof. now destruct responseTo. Qed.

(** The world [Message] leaves when the payload has an encoding. *)
Lemma Message_sent channel from to route payload responseTo retch (w : World) :
  supported payload = true ->
  let msg := buildMessage channel from to route payload responseTo
               (ids w (idsDrawn w)) (clock w) in
  let w' := snd (Message channel from to route payload responseTo retch w) in
  published (redis w')
  = (published (redis w) ++ [(channel, Doc (JObject (messageFields msg)))])%list
  /\ subscribed (redis w')
     = (subscribed (redis w)
        ++ match responseTo with
           | None => [[Msg.ResponseChannel msg]]
           | Some _ => []
           end)%list
  /\ goroutines w'
     = (goroutines w
        ++ match responseTo with
           | None => [ResponseWaiter (Msg.ResponseChannel msg) retch]
           | Some _ => []
           end)%list
  /\ kv (redis w') = kv (redis w)
  /\ self w' = self w.
Proof.
  intros Hs msg w'. subst w'. unfold Message, bind, randomId, timeNowUnix.
  simpl. fold msg.
  rewrite marshalMessage_supported
    by (subst msg; now rewrite buildMessage_payload).
  destruct responseTo; simpl; rewrite ?app_nil_r; auto.
Qed.

(** The world [Message] leaves when the payload has no encoding: the
    message is dropped. *)
Lemma Message_dropped channel from to route payload responseTo retch (w : World) :
  supported payload = false ->
  let w' := snd (Message channel from to route payload responseTo retch w) in
  redis w' = redis w /\ goroutines w' = goroutines w /\ self w' = self w.
Proof.
  intros Hs w'. subst w'. unfold Message, bind, randomId, timeNowUnix.
  simpl. unfold marshalMessage. rewrite buildMessage_payload, Hs. auto.
Qed.

(** C3, as stated, fails: a request whose payload is a channel is not
    published. *)
Lemma Message_channel_payload_not_published :
  published (redis (snd (Message "jobs" "a" "b" "/r" (GChan 0) None (Some 0%nat)
                           quietWorld))) = [].
Proof. reflexivity. Qed.

(** C3, amended: the message of a request carries the response channel
    [<channel>:response:<msgId>] with the fresh message id, and whenever
    the message can be serialized its text is published to [channel],
    for a request and for a reply alike; a message that cannot be
    serialized is dropped. *)
Theorem Message_request_published channel from to route payload responseTo retch
    (w : World) :
  let msgId := ids w (idsDrawn w) in
  let msg := buildMessage channel from to route payload responseTo msgId (clock w) in
  let w' := snd (Message channel from to route payload responseTo retch w) in
  Msg.MsgId msg = msgId
  /\ (responseTo = None ->
        Msg.ResponseChannel msg = channel +:+ ":response:" +:+ msgId)
  /\ (supported payload = true ->
        marshalMessage msg = OK (JObject (messageFields msg))
        /\ published (redis w')
           = (published (redis w)
              ++ [(channel, Doc (JObject (messageFields msg)))])%list)
  /\ (supported payload = false -> published (redis w') = published (redis w)).
Proof.
  intros msgId msg w'. repeat split.
  - subst msg. now destruct responseTo.
  - intros ->. reflexivity.
  - apply marshalMessage_supported. subst msg.
    now rewrite buildMessage_payload.
  - now apply Message_sent.
  - intros Hs. subst w'.
    destruct (Message_dropped channel from to route payload responseTo retch w Hs)
      as (-> & _). reflexivity.
Qed.

Lemma Message_request_published_witness :
  let msg := buildMessage "jobs" "a" "b" "/r" (GString "hello") None "id0" 1700000000 in
  Msg.ResponseChannel msg = "jobs:response:id0"
  /\ published (redis (snd (Message "jobs" "a" "b" "/r" (GString "hello") None
                              (Some 0%nat) quietWorld)))
     = [("jobs", Doc (JObject (messageFields msg)))].
Proof.
  intros msg.
  pose proof (Message_request_published "jobs" "a" "b" "/r" (GString "hello")
                None (Some 0%nat) quietWorld) as (_ & Hrc & Hpub & _).
  split.
  - apply Hrc. reflexivity.
  - apply Hpub. reflexivity.
Defined.

(** Which keys a serialized message has. *)
Lemma omitString_keys (key s k : string) :
  In k (map fst (omitString key s)) <-> k = key /\ s <> "".
Proof.
  unfold omitString. destruct (String.eqb_spec s ""); simpl; intuition congruence.
Qed.

Lemma omitInt_keys (key : string) (n : Z) (k : string) :
  In k (map fst (omitInt key n)) <-> k = key /\ n <> 0.
Proof.
  unfold omitInt. destruct (Z.eqb_spec n 0); simpl; intuition congruence.
Qed.

Lemma omitAny_keys (key : string) (v : GoValue) (k : string) :
  In k (map fst (omitAny key v)) <-> k = key /\ v <> GNil.
Proof.
  destruct v; simpl; intuition congruence.
Qed.

Lemma messageFields_keys (m : Msg.Message) (k : string) :
  In k (map fst (messageFields m)) <->
    (k = "timestamp" /\ Msg.Timestamp m <> 0)
    \/ (k = "msg_id" /\ Msg.MsgId m <> "")
    \/ (k = "response_channel" /\ Msg.ResponseChannel m <> "")
    \/ (k = "channel" /\ Msg.Channel m <> "")
    \/ (k = "route" /\ Msg.Route m <> "")
    \/ (k = "from" /\ Msg.From m <> "")
    \/ (k = "to" /\ Msg.To m <> "")
    \/ (k = "payload" /\ Msg.Payload m <> GNil).
Proof.
  unfold messageFields.
  rewrite !map_app, !in_app_iff, omitInt_keys, !omitString_keys, omitAny_keys.
  tauto.
Qed.

(** C4, as stated, fails: a reply whose payload is a channel is not
    published. *)
Lemma Respond_channel_payload_not_published :
  published (redis (snd (Respond
     (Msg.mkMessage 1 "m1" "rpc:response:m1" "rpc" "/r" "client" "svc" GNil)
     (GChan 0) quietWorld))) = [].
Proof. reflexivity. Qed.

(** C4, amended: the reply [Respond] constructs has [From] and [To]
    swapped and no [ResponseChannel]; whenever the payload can be
    serialized the reply is published to the topic [msg.ResponseChannel],
    its text has no [response_channel] key, and nothing is subscribed and
    no waiter started; a reply that cannot be serialized is dropped. *)
Theorem Respond_publishes_reply (msg : Msg.Message) (payload : GoValue)
    (w : World) :
  let reply := buildMessage (Msg.ResponseChannel msg) (Msg.To msg) (Msg.From msg)
                 (Msg.Route msg) payload (Some (Msg.ResponseChannel msg))
                 (ids w (idsDrawn w)) (clock w) in
  let w' := snd (Respond msg payload w) in
  Msg.From reply = Msg.To msg
  /\ Msg.To reply = Msg.From msg
  /\ Msg.ResponseChannel reply = ""
  /\ ~ In "response_channel" (map fst (messageFields reply))
  /\ (supported payload = true ->
        published (redis w')
        = (published (redis w)
           ++ [(Msg.ResponseChannel msg, Doc (JObject (messageFields reply)))])%list
        /\ subscribed (redis w') = subscribed (redis w)
        /\ goroutines w' = goroutines w)
  /\ (supported payload = false -> published (redis w') = published (redis w)).
Proof.
  intros reply w'. split; [reflexivity|]. split; [reflexivity|].
  split; [reflexivity|]. split; [|split].
  - rewrite messageFields_keys. simpl.
    intros [[? _]|[[? _]|[[_ ?]|[[? _]|[[? _]|[[? _]|[[? _]|[? _]]]]]]]];
      congruence.
  - intros Hs. subst w' reply. unfold Respond.
    destruct (Message_sent (Msg.ResponseChannel msg) (Msg.To msg) (Msg.From msg)
                (Msg.Route msg) payload (Some (Msg.ResponseChannel msg)) None w Hs)
      as (-> & -> & -> & _).
    now rewrite !app_nil_r.
  - intros Hs. subst w'. unfold Respond.
    destruct (Message_dropped (Msg.ResponseChannel msg) (Msg.To msg) (Msg.From msg)
                (Msg.Route msg) payload (Some (Msg.ResponseChannel msg)) None w Hs)
      as (-> & _). reflexivity.
Qed.

Lemma Respond_publishes_reply_witness :
  published (redis (snd (Respond
     (Msg.mkMessage 1 "m1" "rpc:response:m1" "rpc" "/r" "client" "svc" GNil)
     (GString "hello") quietWorld)))
  = [("rpc:response:m1",
      Doc (JObject [("timestamp", JNumber 1700000000); ("msg_id", JString "id0");
                    ("channel", JString "rpc:response:m1");
                    ("route", JString "/r"); ("from", JString "svc");
                    ("to", JString "client"); ("payload", JString "hello")]))].
Proof.
  pose proof (Respond_publishes_reply
    (Msg.mkMessage 1 "m1" "rpc:response:m1" "rpc" "/r" "client" "svc" GNil)
    (GString "hello") quietWorld) as (_ & _ & _ & _ & Hpub & _).
  destruct (Hpub eq_refl) as (-> & _). reflexivity.
Defined.

(** C5: the request of [RPC] is published to the topic ["rpc"], the
    request of [RPCWithTimeout] to the topic [service.Key()]; the two
    topics are never equal, so the two requests differ in where they are
    published and in their [Channel] and [ResponseChannel], and agree in
    [From], [To], [Route], [Payload], [MsgId] and [Timestamp]. *)
Theorem RPC_and_RPCWithTimeout_topics (from : string) (service : Service)
    (route : string) (payload : GoValue) (timeout : Z) (w : World) :
  supported payload = true ->
  let id := ids w (idsDrawn w) in
  let reqA := buildMessage "rpc" from (Key service) route payload None id (clock w) in
  let reqB := buildMessage (Key service) from (Key service) route payload None id
                (clock w) in
  published (redis (snd (RPC from service route payload w)))
  = (published (redis w) ++ [("rpc", Doc (JObject (messageFields reqA)))])%list
  /\ published (redis (snd (RPCWithTimeout from service route payload timeout w)))
     = (published (redis w)
        ++ [(Key service, Doc (JObject (messageFields reqB)))])%list
  /\ "rpc" <> Key service
  /\ Msg.Channel reqA <> Msg.Channel reqB
  /\ Msg.ResponseChannel reqA <> Msg.ResponseChannel reqB
  /\ Msg.From reqA = Msg.From reqB /\ Msg.To reqA = Msg.To reqB
  /\ Msg.Route reqA = Msg.Route reqB /\ Msg.Payload reqA = Msg.Payload reqB
  /\ Msg.MsgId reqA = Msg.MsgId reqB /\ Msg.Timestamp reqA = Msg.Timestamp reqB.
Proof.
  intros Hs id reqA reqB.
  assert (Hne : "rpc" <> Key service) by (unfold Key; discriminate).
  split; [|split].
  - unfold RPC, bind, makeChan. simpl.
    set (w1 := mkWorld _ _ _ _ _ _ _ _ _ _ _).
    destruct (Message "rpc" from (Key service) route payload None
                (Some (chansMade w)) w1) as [[] w2] eqn:Hm. simpl.
    pose proof (Message_sent "rpc" from (Key service) route payload None
                  (Some (chansMade w)) w1 Hs) as (Hp & _).
    rewrite Hm in Hp. exact Hp.
  - unfold RPCWithTimeout, bind, makeChan, spawn. simpl.
    set (w1 := mkWorld _ _ _ _ _ _ _ _ _ _ _).
    destruct (Message (Key service) from (Key service) route payload None
                (Some (chansMade w)) w1) as [[] w2] eqn:Hm. simpl.
    pose proof (Message_sent (Key service) from (Key service) route payload None
                  (Some (chansMade w)) w1 Hs) as (Hp & _).
    rewrite Hm in Hp. exact Hp.
  - repeat split; try assumption.
    simpl. unfold Key. discriminate.
Qed.

Lemma RPC_and_RPCWithTimeout_topics_witness :
  published (redis (snd (RPC "client" echoService "/echo" (GString "hello")
                           quietWorld)))
  <> published (redis (snd (RPCWithTimeout "client" echoService "/echo"
                              (GString "hello") Second quietWorld))).
Proof.
  pose proof (RPC_and_RPCWithTimeout_topics "client" echoService "/echo"
                (GString "hello") Second quietWorld eq_refl) as (-> & -> & _).
  discriminate.
Defined.

(** ** The JSON round trip of a message *)

Lemma GoValue_induction (P : GoValue -> Prop)
    (HNil : P GNil) (HBool : forall b, P (GBool b))
    (HString : forall s, P (GString s)) (HInt : forall z, P (GInt z))
    (HFloat : forall z, P (GFloat64 z))
    (HSlice : forall l, Forall P l -> P (GSlice l))
    (HMap : forall m, Forall (fun kv => P (snd kv)) m -> P (GMap m))
    (HChan : forall c, P (GChan c)) : forall v, P v.
Proof.
  fix go 1. intros [|b|s|z|z|l|m|c].
  - exact HNil.
  - exact (HBool b).
  - exact (HString s).
  - exact (HInt z).
  - exact (HFloat z).
  - apply HSlice. induction l as [|x l IH]; constructor; [apply go | exact IH].
  - apply HMap. induction m as [|kv m IH]; constructor; [apply go | exact IH].
  - exact (HChan c).
Qed.



Lemma preservedPayload_supported (v : GoValue) : preservedPayload v -> supported v = true.
Proof.
  induction v as [| | | | |l IH|m IH|] using GoValue_induction; simpl;
    try tauto.
  - induction IH as [|x l Hx _ IHl]; simpl; [reflexivity|].
    intros [Hn Hl]. now rewrite Hx, IHl.
  - intros [_ Hall]. induction IH as [|kv m Hkv _ IHm]; simpl; [reflexivity|].
    destruct Hall as (_ & Hn & Hm). now rewrite Hkv, IHm.
Qed.



(** Invalid UTF-8 is not preserved either, in a string field or inside
    the payload: the byte FF comes back as U+FFFD. *)
Lemma Message_invalid_utf8_not_preserved :
  let bad := String (ascii_of_N 255) "" in
  unmarshalMessage (Json (Msg.mkMessage 1 "m1" "" "rpc" "/r" "a" "b" (GString bad)))
  = OK (Msg.mkMessage 1 "m1" "" "rpc" "/r" "a" "b" (GString replacementChar))
  /\ unmarshalMessage (Json (Msg.mkMessage 1 bad "" "rpc" "/r" "a" "b" GNil))
     = OK (Msg.mkMessage 1 replacementChar "" "rpc" "/r" "a" "b" GNil)
  /\ replacementChar <> bad.
Proof. repeat split. discriminate. Qed.

Lemma omitString_valid (key s : string) :
  validUTF8 s ->
  omitString key s = if String.eqb s "" then [] else [(key, JString s)].
Proof. unfold omitString, validUTF8. now intros ->. Qed.

Lemma setFields_app {S : Type} (set : S -> string * JValue -> option S)
    (s : S) (l1 l2 : list (string * JValue)) :
  setFields set s (l1 ++ l2)%list
  = match setFields set s l1 with
    | Some s' => setFields set s' l2
    | None => None
    end.
Proof.
  revert s. induction l1 as [|kv l1 IH]; intros s; simpl; [reflexivity|].
  destruct (set s kv); [apply IH|reflexivity].
Qed.

(** Decoding the fields written for a message gives every field back,
    the payload as the value its JSON decodes to. *)
Lemma setFields_messageFields (m : Msg.Message) :
  inInt64 (Msg.Timestamp m) = true ->
  validUTF8 (Msg.MsgId m) -> validUTF8 (Msg.ResponseChannel m) ->
  validUTF8 (Msg.Channel m) -> validUTF8 (Msg.Route m) ->
  validUTF8 (Msg.From m) -> validUTF8 (Msg.To m) ->
  setFields setMessageField zeroMessage (messageFields m)
  = Some (Msg.mkMessage (Msg.Timestamp m) (Msg.MsgId m) (Msg.ResponseChannel m)
            (Msg.Channel m) (Msg.Route m) (Msg.From m) (Msg.To m)
            (decodeValue (encodeValue (Msg.Payload m)))).
Proof.
  intros Hts Hid Hrc Hch Hrt Hfr Hto.
  destruct m as [ts id rc ch rt fr to pl].
  cbn [Msg.Timestamp Msg.MsgId Msg.ResponseChannel Msg.Channel Msg.Route
       Msg.From Msg.To Msg.Payload] in *.
  unfold messageFields, zeroMessage.
  cbn [Msg.Timestamp Msg.MsgId Msg.ResponseChannel Msg.Channel Msg.Route
       Msg.From Msg.To Msg.Payload].
  rewrite !omitString_valid by assumption.
  assert (H1 : forall a b c d e f g,
             setFields setMessageField (Msg.mkMessage 0 a b c d e f g)
               (omitInt "timestamp" ts)
             = Some (Msg.mkMessage ts a b c d e f g)).
  { intros. unfold omitInt. destruct (Z.eqb_spec ts 0) as [->|_];
      [reflexivity|]. cbn -[inInt64]. now rewrite Hts. }
  assert (H2 : forall a b c d e f g,
             setFields setMessageField (Msg.mkMessage a "" b c d e f g)
               (if String.eqb id "" then [] else [("msg_id", JString id)])
             = Some (Msg.mkMessage a id b c d e f g)).
  { intros. destruct (String.eqb_spec id "") as [->|_]; reflexivity. }
  assert (H3 : forall a b c d e f g,
             setFields setMessageField (Msg.mkMessage a b "" c d e f g)
               (if String.eqb rc "" then [] else [("response_channel", JString rc)])
             = Some (Msg.mkMessage a b rc c d e f g)).
  { intros. destruct (String.eqb_spec rc "") as [->|_]; reflexivity. }
  assert (H4 : forall a b c d e f g,
             setFields setMessageField (Msg.mkMessage a b c "" d e f g)
               (if String.eqb ch "" then [] else [("channel", JString ch)])
             = Some (Msg.mkMessage a b c ch d e f g)).
  { intros. destruct (String.eqb_spec ch "") as [->|_]; reflexivity. }
  assert (H5 : forall a b c d e f g,
             setFields setMessageField (Msg.mkMessage a b c d "" e f g)
               (if String.eqb rt "" then [] else [("route", JString rt)])
             = Some (Msg.mkMessage a b c d rt e f g)).
  { intros. destruct (String.eqb_spec rt "") as [->|_]; reflexivity. }
  assert (H6 : forall a b c d e f g,
             setFields setMessageField (Msg.mkMessage a b c d e "" f g)
               (if String.eqb fr "" then [] else [("from", JString fr)])
             = Some (Msg.mkMessage a b c d e fr f g)).
  { intros. destruct (String.eqb_spec fr "") as [->|_]; reflexivity. }
  assert (H7 : forall a b c d e f g,
             setFields setMessageField (Msg.mkMessage a b c d e f "" g)
               (if String.eqb to "" then [] else [("to", JString to)])
             = Some (Msg.mkMessage a b c d e f to g)).
  { intros. destruct (String.eqb_spec to "") as [->|_]; reflexivity. }
  assert (H8 : forall a b c d e f g,
             setFields setMessageField (Msg.mkMessage a b c d e f g GNil)
               (omitAny "payload" pl)
             = Some (Msg.mkMessage a b c d e f g (decodeValue (encodeValue pl)))).
  { intros. destruct pl; reflexivity. }
  rewrite setFields_app, H1. cbv beta iota.
  rewrite setFields_app, H2. cbv beta iota.
  rewrite setFields_app, H3. cbv beta iota.
  rewrite setFields_app, H4. cbv beta iota.
  rewrite setFields_app, H5. cbv beta iota.
  rewrite setFields_app, H6. cbv beta iota.
  rewrite setFields_app, H7. cbv beta iota.
  apply H8.
Qed.



(** ** The theorems at concrete inputs *)

Lemma ResolveService_matches_witness :
  fst (ResolveService "/echo/x" registered) = Returns (OK echoService)
  /\ exists route rest,
       In route (Routes echoService) /\ "/echo/x" = Route route +:+ rest.
Proof.
  destruct (ResolveService_matches "/echo/x" registered)
    as (svcs & res & _ & Hres & _ & Hok).
  split; [reflexivity|].
  apply (Hok echoService).
  assert (Returns res = Returns (OK echoService)) as [= ->]
    by (rewrite <- Hres; reflexivity).
  reflexivity.
Defined.

Lemma RegisterService_duplicate_check_witness :
  isErr (fst (RegisterService "echo" 80 [] None registered)) = true
  /\ isErr (fst (RegisterService "echo" 80 [] None quietWorld)) = false.
Proof.
  split.
  - apply (proj1 (RegisterService_duplicate_check "echo" 80 [] None registered)).
    simpl. eexists _, _. split; reflexivity.
  - reflexivity.
Defined.

Lemma Match_order_independent_witness :
  let s := mkService "id0" "echo" "10.0.0.1" 80
             [mkServiceRoute "/a" None; mkServiceRoute "/echo" None] None in
  Match (withRoutes s [mkServiceRoute "/echo" None; mkServiceRoute "/a" None])
    "/echo/x" = Match s "/echo/x".
Proof.
  intros s.
  apply (proj1 (proj2 (Match_order_independent s "/echo/x"))).
  apply perm_swap.
Defined.

(** * Further properties of the library *)

(** ** The health record *)

Lemma decodeRoutes_routeDocs (routes : ServiceRoutes) :
  Forall (fun r => validUTF8 (Route r)) routes ->
  mapM decodeRoute (map routeDoc routes) = Some (map stripRoute routes).
Proof.
  induction 1 as [|r routes Hr _ IH]; [reflexivity|].
  cbn -[coerceUTF8]. rewrite Hr. cbn. rewrite IH. reflexivity.
Qed.

Lemma setFields_serviceFields (s : Service) :
  validUTF8 (Id s) -> validUTF8 (Name s) -> validUTF8 (IpAddress s) ->
  inInt64 (Port s) = true ->
  Forall (fun r => validUTF8 (Route r)) (Routes s) ->
  setFields setServiceField zeroService (serviceFields s) = Some (stripService s).
Proof.
  intros Hid Hname Hip Hport Hroutes.
  pose proof (decodeRoutes_routeDocs _ Hroutes) as Hdec.
  destruct s as [id name ip port routes live].
  cbn [Id Name IpAddress Port Routes] in *.
  unfold serviceFields, stripService, zeroService.
  cbn [Id Name IpAddress Port Routes].
  rewrite !omitString_valid by assumption.
  assert (H1 : forall a b c d e,
             setFields setServiceField (mkService "" a b c d e)
               (if String.eqb id "" then [] else [("id", JString id)])
             = Some (mkService id a b c d e)).
  { intros. destruct (String.eqb_spec id "") as [->|_]; reflexivity. }
  assert (H2 : forall a b c d e,
             setFields setServiceField (mkService a "" b c d e)
               (if String.eqb name "" then [] else [("name", JString name)])
             = Some (mkService a name b c d e)).
  { intros. destruct (String.eqb_spec name "") as [->|_]; reflexivity. }
  assert (H3 : forall a b c d e,
             setFields setServiceField (mkService a b "" c d e)
               (if String.eqb ip "" then [] else [("ip_address", JString ip)])
             = Some (mkService a b ip c d e)).
  { intros. destruct (String.eqb_spec ip "") as [->|_]; reflexivity. }
  assert (H4 : forall a b c d e,
             setFields setServiceField (mkService a b c 0 d e) (omitInt "port" port)
             = Some (mkService a b c port d e)).
  { intros. unfold omitInt. destruct (Z.eqb_spec port 0) as [->|_];
      [reflexivity|]. cbn -[inInt64]. now rewrite Hport. }
  assert (H5 : forall a b c d e,
             setFields setServiceField (mkService a b c d [] e)
               match routes with
               | [] => []
               | r :: l => [("routes", JArray (map routeDoc (r :: l)))]
               end
             = Some (mkService a b c d (map stripRoute routes) e)).
  { intros. destruct routes as [|r routes]; [reflexivity|].
    set (docs := map routeDoc (r :: routes)) in *. clearbody docs.
    set (stripped := map stripRoute (r :: routes)) in *. clearbody stripped.
    cbv -[mapM decodeRoute] in Hdec |- *. now rewrite Hdec. }
  rewrite setFields_app, H1. cbv beta iota.
  rewrite setFields_app, H2. cbv beta iota.
  rewrite setFields_app, H3. cbv beta iota.
  rewrite setFields_app, H4. cbv beta iota.
  apply H5.
Qed.

(** X1: The health record of a service decodes to the service without its
    handlers and liveness channel, provided its strings are valid UTF-8
    and its port fits an [int]; this is the record [FetchService]
    rebuilds. *)
Theorem Service_json_round_trip (s : Service) :
  validUTF8 (Id s) -> validUTF8 (Name s) -> validUTF8 (IpAddress s) ->
  inInt64 (Port s) = true ->
  Forall (fun r => validUTF8 (Route r)) (Routes s) ->
  unmarshalService (Doc (marshalService s)) = OK (stripService s).
Proof.
  intros Hid Hname Hip Hport Hroutes.
  unfold unmarshalService, marshalService.
  rewrite setFields_serviceFields by assumption.
  reflexivity.
Qed.

Lemma Service_json_round_trip_witness :
  unmarshalService (Doc (marshalService
     (mkService "id0" "echo" "10.0.0.1" 80 [mkServiceRoute "/echo" (Some 3%nat)]
        (Some 1%nat))))
  = OK echoService.
Proof.
  apply (Service_json_round_trip
           (mkService "id0" "echo" "10.0.0.1" 80 [mkServiceRoute "/echo" (Some 3%nat)]
              (Some 1%nat))); try reflexivity.
  repeat constructor.
Defined.

(** ** What a refresh writes *)

Lemma presence_health_ne (s : Service) : presenceKey s <> healthKey s.
Proof. unfold presenceKey, healthKey. intros H%(inj (String.app _)). discriminate. Qed.

Lemma presence_routes_ne (s : Service) : presenceKey s <> routesKey s.
Proof. unfold presenceKey, routesKey. intros H%(inj (String.app _)). discriminate. Qed.

Lemma health_routes_ne (s : Service) : healthKey s <> routesKey s.
Proof. unfold healthKey, routesKey. intros H%(inj (String.app _)). discriminate. Qed.

Lemma redisSAdd_lookup (key : string) (ms : list string) (r : Redis) (k : string) :
  kv (redisSAdd key ms r) !! k
  = if decide (k = key) then saddEntry ms (kv r !! key) else kv r !! k.
Proof.
  unfold redisSAdd, saddEntry. destruct ms as [|m ms].
  - destruct (decide _) as [->|]; reflexivity.
  - destruct (kv r !! key) as [[[v|mem] t]|] eqn:Hk; simpl;
      destruct (decide (k = key)) as [->|Hne];
      rewrite ?lookup_insert_eq, ?lookup_insert_ne by congruence; auto.
Qed.

Lemma redisExpire_lookup (key : string) (d : Z) (r : Redis) (k : string) :
  kv (redisExpire key d r) !! k
  = if decide (k = key) then expireEntry d (kv r !! key) else kv r !! k.
Proof.
  unfold redisExpire, expireEntry.
  destruct (kv r !! key) as [[v t]|] eqn:Hk; simpl.
  - destruct (0 <? d); simpl; destruct (decide (k = key)) as [->|Hne];
      rewrite ?lookup_insert_eq, ?lookup_insert_ne, ?lookup_delete_eq,
        ?lookup_delete_ne by congruence; auto.
  - destruct (decide _) as [->|]; auto.
Qed.

Lemma redisSAdd_pubsub key ms r :
  published (redisSAdd key ms r) = published r
  /\ subscribed (redisSAdd key ms r) = subscribed r.
Proof.
  unfold redisSAdd. destruct ms; [auto|].
  destruct (kv r !! key) as [[[v|mem] t]|]; auto.
Qed.

Lemma redisExpire_pubsub key d r :
  published (redisExpire key d r) = published r
  /\ subscribed (redisExpire key d r) = subscribed r.
Proof.
  unfold redisExpire. destruct (kv r !! key) as [[v t]|]; [|auto].
  destruct (0 <? d); auto.
Qed.

Lemma UpdateService_unfold (svc : Service) (w : World) :
  snd (UpdateService svc w)
  = withRedis (fun r =>
      redisExpire (routesKey svc) DefaultTTL
        (redisSAdd (routesKey svc) (map Route (Routes svc))
           (redisSet (healthKey svc) (Doc (marshalService svc)) DefaultTTL
              (redisSet (presenceKey svc) (Raw (Id svc)) DefaultTTL r)))) w.
Proof. reflexivity. Qed.

(** The store after a refresh, key by key. *)
Lemma UpdateService_lookup (svc : Service) (w : World) (k : string) :
  kv (redis (snd (UpdateService svc w))) !! k
  = if decide (k = routesKey svc) then
      expireEntry DefaultTTL
        (saddEntry (map Route (Routes svc)) (kv (redis w) !! routesKey svc))
    else if decide (k = healthKey svc) then
      Some (mkEntry (RString (Doc (marshalService svc))) (Some DefaultTTL))
    else if decide (k = presenceKey svc) then
      Some (mkEntry (RString (Raw (Id svc))) (Some DefaultTTL))
    else kv (redis w) !! k.
Proof.
  rewrite UpdateService_unfold. simpl.
  rewrite redisExpire_lookup, !redisSAdd_lookup.
  pose proof (presence_routes_ne svc). pose proof (health_routes_ne svc).
  pose proof (presence_health_ne svc).
  destruct (decide (k = routesKey svc)) as [->|Hr].
  - rewrite decide_True by reflexivity. simpl.
    rewrite !lookup_insert_ne by congruence. reflexivity.
  - simpl. destruct (decide (k = healthKey svc)) as [->|Hh].
    + now rewrite lookup_insert_eq.
    + rewrite lookup_insert_ne by congruence.
      destruct (decide (k = presenceKey svc)) as [->|Hp].
      * now rewrite lookup_insert_eq.
      * now rewrite lookup_insert_ne by congruence.
Qed.

Lemma UpdateService_pubsub (svc : Service) (w : World) :
  published (redis (snd (UpdateService svc w))) = published (redis w)
  /\ subscribed (redis (snd (UpdateService svc w))) = subscribed (redis w).
Proof.
  rewrite UpdateService_unfold. simpl.
  destruct (redisExpire_pubsub (routesKey svc) DefaultTTL
              (redisSAdd (routesKey svc) (map Route (Routes svc))
                 (redisSet (healthKey svc) (Doc (marshalService svc)) DefaultTTL
                    (redisSet (presenceKey svc) (Raw (Id svc)) DefaultTTL (redis w)))))
    as [-> ->].
  destruct (redisSAdd_pubsub (routesKey svc) (map Route (Routes svc))
              (redisSet (healthKey svc) (Doc (marshalService svc)) DefaultTTL
                 (redisSet (presenceKey svc) (Raw (Id svc)) DefaultTTL (redis w))))
    as [-> ->].
  split; reflexivity.
Qed.

(** X2: A refresh ([UpdateService], run at registration and by every
    heartbeat) leaves the presence key holding the service id and the
    health key holding the service record, both with the five second time
    to live; it touches no key but the three keys of the service, and it
    publishes and subscribes nothing. *)
Theorem UpdateService_writes_three_keys (svc : Service) (w : World) :
  let w' := snd (UpdateService svc w) in
  kv (redis w') !! presenceKey svc
  = Some (mkEntry (RString (Raw (Id svc))) (Some (5 * Second)))
  /\ kv (redis w') !! healthKey svc
     = Some (mkEntry (RString (Doc (marshalService svc))) (Some (5 * Second)))
  /\ (forall k, k <> presenceKey svc -> k <> healthKey svc -> k <> routesKey svc ->
        kv (redis w') !! k = kv (redis w) !! k)
  /\ published (redis w') = published (redis w)
  /\ subscribed (redis w') = subscribed (redis w)
  /\ self w' = self w /\ goroutines w' = goroutines w.
Proof.
  intros w'. subst w'.
  pose proof (presence_routes_ne svc). pose proof (health_routes_ne svc).
  pose proof (presence_health_ne svc).
  repeat split.
  - rewrite UpdateService_lookup.
    rewrite decide_False, decide_False, decide_True by congruence. reflexivity.
  - rewrite UpdateService_lookup.
    rewrite decide_False, decide_True by congruence. reflexivity.
  - intros k Hp Hh Hr. rewrite UpdateService_lookup.
    now rewrite !decide_False by congruence.
  - apply UpdateService_pubsub.
  - apply UpdateService_pubsub.
Qed.

Lemma UpdateService_writes_three_keys_witness :
  kv (redis (snd (UpdateService echoService quietWorld))) !! "unrelated" = None.
Proof.
  destruct (UpdateService_writes_three_keys echoService quietWorld)
    as (_ & _ & Hframe & _).
  rewrite Hframe; [reflexivity|discriminate..].
Defined.

Lemma Redis_eq (r1 r2 : Redis) :
  kv r1 = kv r2 -> published r1 = published r2 -> subscribed r1 = subscribed r2 ->
  r1 = r2.
Proof. destruct r1, r2. simpl. congruence. Qed.

Lemma refresh_entry_idempotent (ms : list string) (o : option Entry) :
  expireEntry DefaultTTL (saddEntry ms (expireEntry DefaultTTL (saddEntry ms o)))
  = expireEntry DefaultTTL (saddEntry ms o).
Proof.
  destruct ms as [|m ms]; destruct o as [[[v|mem] t]|]; simpl; try reflexivity.
  - now rewrite <- (assoc_L (∪)), (idemp_L (∪)).
  - now rewrite (idemp_L (∪)).
Qed.

(** X3: A heartbeat that follows a refresh changes nothing in the store: the
    second of two refreshes of the same service is a no-op. *)
Theorem UpdateService_idempotent (svc : Service) (w : World) :
  redis (snd (UpdateService svc (snd (UpdateService svc w))))
  = redis (snd (UpdateService svc w)).
Proof.
  apply Redis_eq.
  - apply map_eq. intros k. rewrite !UpdateService_lookup.
    destruct (decide (k = routesKey svc)) as [->|Hr].
    + rewrite decide_True by reflexivity. apply refresh_entry_idempotent.
    + repeat destruct (decide _); congruence.
  - now rewrite !(proj1 (UpdateService_pubsub _ _)).
  - now rewrite !(proj2 (UpdateService_pubsub _ _)).
Qed.

Lemma UpdateRoutes_lookup (svc : Service) (w : World) :
  kv (redis (snd (UpdateRoutes svc w))) !! routesKey svc
  = expireEntry DefaultTTL
      (saddEntry (map Route (Routes svc)) (kv (redis w) !! routesKey svc)).
Proof.
  change (snd (UpdateRoutes svc w))
    with (withRedis (fun r => redisExpire (routesKey svc) DefaultTTL
                       (redisSAdd (routesKey svc) (map Route (Routes svc)) r)) w).
  simpl. rewrite redisExpire_lookup, redisSAdd_lookup.
  now rewrite !decide_True by reflexivity.
Qed.

(** X4: [UpdateRoutes] only ever adds to the route set: every member the set
    had is still a member, every route of the table is a member when the
    key is absent or holds a set, and the key then has the five second
    time to live.  With an empty table and no key nothing is written. *)
Theorem UpdateRoutes_accumulates (svc : Service) (w : World) :
  let w' := snd (UpdateRoutes svc w) in
  members (routesKey svc) (redis w) ⊆ members (routesKey svc) (redis w')
  /\ ((forall v t, kv (redis w) !! routesKey svc <> Some (mkEntry (RString v) t)) ->
      Routes svc <> [] ->
      kv (redis w') !! routesKey svc
      = Some (mkEntry (RSet (members (routesKey svc) (redis w)
                             ∪ list_to_set (map Route (Routes svc))))
                (Some (5 * Second))))
  /\ (Routes svc = [] -> kv (redis w) !! routesKey svc = None ->
      redis w' = redis w).
Proof.
  intros w'. subst w'. split; [|split].
  - unfold members at 2. rewrite UpdateRoutes_lookup. unfold members.
    destruct (map Route (Routes svc)) as [|m ms];
      destruct (kv (redis w) !! routesKey svc) as [[[v|mem] t]|]; simpl;
      try reflexivity; try apply empty_subseteq; apply union_subseteq_l.
  - intros Hset Hne. rewrite UpdateRoutes_lookup. unfold members.
    destruct (Routes svc) as [|r rs]; [congruence|]. simpl.
    destruct (kv (redis w) !! routesKey svc) as [[[v|mem] t]|] eqn:Hk; simpl.
    + now destruct (Hset v t).
    + reflexivity.
    + now rewrite (left_id_L ∅ (∪)).
  - intros Hnil Hnone. unfold UpdateRoutes, bind, modify. simpl.
    rewrite Hnil. simpl. unfold redisExpire. fold (routesKey svc).
    rewrite Hnone. reflexivity.
Qed.

Lemma UpdateRoutes_accumulates_witness :
  kv (redis (snd (UpdateRoutes echoService quietWorld))) !! routesKey echoService
  = Some (mkEntry (RSet (members (routesKey echoService) (redis quietWorld)
                         ∪ list_to_set ["/echo"]))
            (Some (5 * Second))).
Proof.
  apply (proj1 (proj2 (UpdateRoutes_accumulates echoService quietWorld)));
    discriminate.
Defined.

(** ** From registration to discovery *)

Lemma healthKey_unfold (s : Service) :
  "morpheus:service:" +:+ Name s +:+ ":" +:+ Id s +:+ ":health" = healthKey s.
Proof. unfold healthKey, Key. now rewrite !app_assoc_string. Qed.

Lemma presenceKey_unfold (s : Service) :
  presenceKey s = "morpheus:service:" +:+ Name s +:+ ":" +:+ Id s +:+ ":presence".
Proof. unfold presenceKey, Key. now rewrite !app_assoc_string. Qed.

Lemma FetchService_refreshed (svc : Service) (w : World) :
  validUTF8 (Id svc) -> validUTF8 (Name svc) -> validUTF8 (IpAddress svc) ->
  inInt64 (Port svc) = true ->
  Forall (fun r => validUTF8 (Route r)) (Routes svc) ->
  FetchService (Name svc) (Id svc) (redis (snd (UpdateService svc w)))
  = OK (stripService svc).
Proof.
  intros Hid Hname Hip Hport Hroutes. unfold FetchService, redisGet.
  rewrite healthKey_unfold, UpdateService_lookup.
  pose proof (health_routes_ne svc).
  rewrite decide_False, decide_True by congruence.
  unfold unmarshalService, marshalService.
  now rewrite setFields_serviceFields.
Qed.

(** X5: What [FetchService] reads right after a refresh is the service that
    was refreshed, without handlers and liveness channel. *)
Theorem FetchService_after_UpdateService (svc : Service) (w : World) :
  validUTF8 (Id svc) -> validUTF8 (Name svc) -> validUTF8 (IpAddress svc) ->
  inInt64 (Port svc) = true ->
  Forall (fun r => validUTF8 (Route r)) (Routes svc) ->
  FetchService (Name svc) (Id svc) (redis (snd (UpdateService svc w)))
  = OK (stripService svc).
Proof.
  intros Hid Hname Hip Hport Hroutes.
  assert (Hkey : kv (redis (snd (UpdateService svc w))) !! healthKey svc
                 = Some (mkEntry (RString (Doc (marshalService svc)))
                           (Some DefaultTTL))).
  { rewrite UpdateService_lookup. pose proof (health_routes_ne svc).
    now rewrite decide_False, decide_True by congruence. }
  unfold FetchService, redisGet. rewrite healthKey_unfold, Hkey.
  unfold unmarshalService, marshalService.
  now rewrite setFields_serviceFields.
Qed.

Lemma FetchService_after_UpdateService_witness :
  FetchService "echo" "id0" (redis (snd (UpdateService echoService quietWorld)))
  = OK echoService.
Proof.
  apply (FetchService_after_UpdateService echoService quietWorld);
    try reflexivity.
  repeat constructor.
Defined.

Lemma Split_head_app (a b : string) :
  Split (a +:+ String colon b) !! 0%nat = Split a !! 0%nat.
Proof.
  induction a as [|c a IH].
  - reflexivity.
  - change (String c a +:+ String colon b) with (String c (a +:+ String colon b)).
    simpl. destruct (Ascii.eqb c colon); [reflexivity|].
    destruct (Split_nonempty (a +:+ String colon b)) as (p1 & ps1 & H1).
    destruct (Split_nonempty a) as (p2 & ps2 & H2).
    rewrite H1, H2 in *. simpl in *. congruence.
Qed.

Lemma Split_head_colonFree (s : string) :
  Split s !! 0%nat = Some s <-> colonFree s = true.
Proof.
  induction s as [|c s IH]; simpl; [tauto|].
  destruct (Ascii.eqb c colon); simpl; [split; discriminate|].
  destruct (Split_nonempty s) as (p & ps & Hs). rewrite Hs in *. simpl in *.
  rewrite <- IH. split; congruence.
Qed.

Lemma getServiceName_presence (svc : Service) :
  getServiceName (presenceKey svc) = Split (Name svc) !! 0%nat.
Proof.
  rewrite presenceKey_unfold. unfold getServiceName.
  change (":" +:+ Id svc +:+ ":presence")
    with (String colon (Id svc +:+ ":presence")).
  pose proof (Split_head_app (Name svc) (Id svc +:+ ":presence")) as H.
  destruct (Split_nonempty (Name svc +:+ String colon (Id svc +:+ ":presence")))
    as (p & ps & Hs).
  change ("morpheus:service:" +:+ Name svc +:+ String colon (Id svc +:+ ":presence"))
    with (String "m" (String "o" (String "r" (String "p" (String "h" (String "e"
          (String "u" (String "s" (String colon (String "s" (String "e" (String "r"
          (String "v" (String "i" (String "c" (String "e" (String colon
          (Name svc +:+ String colon (Id svc +:+ ":presence"))))))))))))))))))).
  simpl. rewrite Hs in *. simpl in *. exact H.
Qed.

(** X6: The name [ListServices] derives from a presence key is the part of
    the service name before its first colon: it is the service name
    exactly when the name contains no colon. *)
Theorem getServiceName_of_presence_key (svc : Service) :
  getServiceName (Key svc +:+ ":presence") = Split (Name svc) !! 0%nat
  /\ (getServiceName (Key svc +:+ ":presence") = Some (Name svc)
      <-> colonFree (Name svc) = true).
Proof.
  fold (presenceKey svc). rewrite getServiceName_presence.
  split; [reflexivity|apply Split_head_colonFree].
Qed.

Lemma glob_star_unfold (p s : string) :
  glob (String star p) s
  = glob p s || match s with
                | EmptyString => false
                | String _ s' => glob (String star p) s'
                end.
Proof. destruct s; reflexivity. Qed.

Lemma glob_star_app (p x y : string) :
  glob p y = true -> glob (String star p) (x +:+ y) = true.
Proof.
  intros Hy. induction x as [|c x IH].
  - change ("" +:+ y) with y. rewrite glob_star_unfold, Hy. reflexivity.
  - change (String c x +:+ y) with (String c (x +:+ y)).
    rewrite glob_star_unfold, IH. apply orb_true_r.
Qed.

Lemma glob_literal_step (c : ascii) (p s : string) :
  Ascii.eqb c star = false -> glob (String c p) (String c s) = glob p s.
Proof. intros Hc. simpl. now rewrite Hc, Ascii.eqb_refl. Qed.

Lemma glob_presenceKey (svc : Service) :
  glob "morpheus:service:*:presence" (presenceKey svc) = true.
Proof.
  unfold presenceKey, Key. rewrite !app_assoc_string.
  change ("morpheus:service:" +:+ Name svc +:+ ":" +:+ Id svc +:+ ":presence")
    with (String "m" (String "o" (String "r" (String "p" (String "h" (String "e"
          (String "u" (String "s" (String ":" (String "s" (String "e" (String "r"
          (String "v" (String "i" (String "c" (String "e" (String ":"
          (Name svc +:+ ":" +:+ Id svc +:+ ":presence")))))))))))))))))).
  rewrite !glob_literal_step by reflexivity.
  rewrite <- !app_assoc_string.
  now apply (glob_star_app ":presence").
Qed.

Lemma redisKeys_elem (pattern k : string) (r : Redis) :
  k ∈ redisKeys pattern r <-> glob pattern k = true /\ is_Some (kv r !! k).
Proof.
  unfold redisKeys. rewrite list_elem_of_filter, list_elem_of_fmap.
  split.
  - intros [Hg ([k' e] & -> & Hin)]. split; [assumption|].
    apply elem_of_map_to_list in Hin. simpl. eauto.
  - intros [Hg [e He]]. split; [assumption|].
    exists (k, e). split; [reflexivity|]. now apply elem_of_map_to_list.
Qed.

Lemma listLoop_mono (r : Redis) (keys : list string) (acc svcs : list Service) :
  listLoop r keys acc = Returns svcs -> forall x, x ∈ acc -> x ∈ svcs.
Proof.
  revert acc. induction keys as [|key keys IH]; intros acc; simpl.
  - now intros [= ->].
  - destruct (redisGet key r); [|apply IH].
    destruct (getServiceName key); [|discriminate].
    destruct (FetchService _ _ r); [|apply IH].
    intros Hl x Hx. apply (IH _ Hl). apply elem_of_app. auto.
Qed.

Lemma listLoop_elem (r : Redis) (keys : list string) (acc svcs : list Service)
    (key : string) (val : Text) (name : string) (svc : Service) :
  listLoop r keys acc = Returns svcs ->
  key ∈ keys -> redisGet key r = OK val -> getServiceName key = Some name ->
  FetchService name (textString val) r = OK svc ->
  svc ∈ svcs.
Proof.
  intros Hl Hin Hget Hname Hfetch. revert acc Hl.
  induction keys as [|k keys IH]; intros acc; [inversion Hin|].
  apply elem_of_cons in Hin as [<-|Hin]; simpl.
  - rewrite Hget, Hname, Hfetch. intros Hl.
    apply (listLoop_mono _ _ _ _ Hl). apply elem_of_app. right.
    apply list_elem_of_singleton. reflexivity.
  - destruct (redisGet k r) as [v|]; [|now apply IH].
    destruct (getServiceName k) as [n|]; [|discriminate].
    match goal with
    | |- context [FetchService n ?x r] => destruct (FetchService n x r)
    end; now apply IH.
Qed.

Lemma RegisterService_fresh_redis (name : string) (port : Z) (routes : ServiceRoutes)
    (handler : option MessageHandler) (w : World) :
  serviceExists name (ids w (idsDrawn w)) (self w) = false ->
  redis (snd (RegisterService name port routes handler w))
  = redis (snd (UpdateService
                  (mkService (ids w (idsDrawn w)) name (outboundIp w) port routes None)
                  w)).
Proof.
  intros Hfree. unfold RegisterService, bind, randomId. simpl.
  rewrite Hfree. destruct handler; reflexivity.
Qed.

Lemma matchRoutes_strip (routes : ServiceRoutes) (path : string) :
  matchRoutes (map stripRoute routes) path = matchRoutes routes path.
Proof.
  induction routes as [|r routes IH]; simpl; [reflexivity|]. now rewrite IH.
Qed.

Lemma ResolveService_succeeds (path : string) (w : World)
    (svcs : list Service) (svc : Service) :
  ListServices (redis w) = Returns svcs ->
  svc ∈ svcs -> Match svc path = true ->
  exists s, fst (ResolveService path w) = Returns (OK s)
            /\ s ∈ svcs /\ Match s path = true.
Proof.
  intros Hl Hin Hm. unfold ResolveService. rewrite Hl.
  set (out := filter (fun s => Match s path = true) svcs).
  assert (Ho : svc ∈ out) by (apply list_elem_of_filter; auto).
  destruct (0 <? length out)%nat eqn:Hlen.
  - destruct (randInt w) as [r w'].
    assert (Hidx : (N.to_nat (r mod N.of_nat (length out)) < length out)%nat).
    { apply Nat.ltb_lt in Hlen.
      pose proof (N.mod_upper_bound r (N.of_nat (length out))). lia. }
    destruct (lookup_lt_is_Some_2 out _ Hidx) as [s Hs]. rewrite Hs.
    exists s. split; [reflexivity|].
    apply list_elem_of_lookup_2, list_elem_of_filter in Hs. tauto.
  - apply Nat.ltb_ge in Hlen. destruct out; [inversion Ho|simpl in Hlen; lia].
Qed.

(** X7: A service registered under a colon-free name, with valid UTF-8
    strings and a port that fits an [int], is discoverable at once:
    [ListServices] lists it (without handlers), and [ResolveService]
    succeeds with a matching service for every path that one of its
    routes is a prefix of. *)
Theorem registered_service_is_resolvable (name : string) (port : Z)
    (routes : ServiceRoutes) (handler : option MessageHandler) (w : World) :
  let id := ids w (idsDrawn w) in
  let svc := mkService id name (outboundIp w) port routes None in
  let w' := snd (RegisterService name port routes handler w) in
  serviceExists name id (self w) = false ->
  colonFree name = true ->
  validUTF8 id -> validUTF8 name -> validUTF8 (outboundIp w) ->
  inInt64 port = true ->
  Forall (fun r => validUTF8 (Route r)) routes ->
  exists svcs,
    ListServices (redis w') = Returns svcs
    /\ stripService svc ∈ svcs
    /\ forall path, Match svc path = true ->
         exists s, fst (ResolveService path w') = Returns (OK s)
                   /\ s ∈ svcs /\ Match s path = true.
Proof.
  intros id svc w' Hfree Hcolon Hid Hname Hip Hport Hroutes.
  destruct (ListServices_returns (redis w')) as [svcs Hl].
  exists svcs. split; [assumption|].
  assert (Hredis : redis w' = redis (snd (UpdateService svc w)))
    by now apply RegisterService_fresh_redis.
  assert (Hin : stripService svc ∈ svcs).
  { assert (Hkey : presenceKey svc ∈ redisKeys "morpheus:service:*:presence" (redis w')).
    { apply redisKeys_elem. split; [apply glob_presenceKey|].
      rewrite Hredis, UpdateService_lookup.
      pose proof (presence_routes_ne svc). pose proof (presence_health_ne svc).
      rewrite decide_False, decide_False, decide_True by congruence. eauto. }
    unfold ListServices in Hl.
    destruct (0 <? length _)%nat eqn:Hlen.
    - destruct (listLoop _ _ _) as [found|] eqn:Hloop; [|discriminate].
      injection Hl as <-.
      eapply list_elem_of_In, Permutation_in; [apply sortStable_perm|].
      apply list_elem_of_In.
      apply (listLoop_elem _ _ _ _ (presenceKey svc) (Raw id) name _ Hloop Hkey).
      + unfold redisGet. rewrite Hredis, UpdateService_lookup.
        pose proof (presence_routes_ne svc). pose proof (presence_health_ne svc).
        now rewrite decide_False, decide_False, decide_True by congruence.
      + rewrite getServiceName_presence. now apply Split_head_colonFree.
      + rewrite Hredis. now apply (FetchService_refreshed svc w).
    - apply Nat.ltb_ge in Hlen.
      destruct (redisKeys _ _); [inversion Hkey|simpl in Hlen; lia]. }
  split; [assumption|].
  intros path Hm. apply (ResolveService_succeeds path w' svcs (stripService svc));
    auto.
  unfold Match in *. simpl. now rewrite matchRoutes_strip.
Qed.

Lemma registered_service_is_resolvable_witness :
  exists s, fst (ResolveService "/echo/x" registered) = Returns (OK s)
            /\ Match s "/echo/x" = true.
Proof.
  destruct (registered_service_is_resolvable "echo" 80 [mkServiceRoute "/echo" None]
              None quietWorld) as (svcs & _ & _ & Hres);
    try reflexivity; [repeat constructor|].
  destruct (Hres "/echo/x" eq_refl) as (s & Hs & _ & Hm). eauto.
Defined.

(** ** The registry: add, remove, delete *)

Lemma serviceExists_find (name id : string) (m : Morpheus) :
  serviceExists name id m = true <-> is_Some (findService name id (Services m)).
Proof.
  unfold serviceExists, findService.
  destruct (Services m !! name) as [inner|].
  - destruct (inner !! id); split; eauto; try discriminate.
    intros [? ?]. discriminate.
  - split; [discriminate|]. intros [? ?]. discriminate.
Qed.

Lemma findService_Add (svc : Service) (s : gmap string (gmap string Service))
    (name id : string) :
  findService name id (Add svc s)
  = if decide (name = Name svc /\ id = Id svc) then Some svc
    else findService name id s.
Proof.
  unfold findService, Add.
  destruct (s !! Name svc) as [inner|] eqn:Hn;
    destruct (decide (name = Name svc)) as [->|Hne].
  - rewrite lookup_insert_eq, Hn.
    destruct (decide (id = Id svc)) as [->|Hi].
    + rewrite lookup_insert_eq. now rewrite decide_True.
    + rewrite lookup_insert_ne by congruence. now rewrite decide_False by tauto.
  - rewrite lookup_insert_ne by congruence. now rewrite decide_False by tauto.
  - rewrite lookup_insert_eq, Hn.
    destruct (decide (id = Id svc)) as [->|Hi].
    + rewrite lookup_singleton_eq. now rewrite decide_True.
    + rewrite lookup_singleton_ne by congruence. now rewrite decide_False by tauto.
  - rewrite lookup_insert_ne by congruence. now rewrite decide_False by tauto.
Qed.

(** X8: [Services.Add] stores the service under (name, id), replacing what
    was there, and changes no other entry of the registry. *)
Theorem Add_then_find (svc : Service) (s : gmap string (gmap string Service)) :
  findService (Name svc) (Id svc) (Add svc s) = Some svc
  /\ forall name id, (name <> Name svc \/ id <> Id svc) ->
       findService name id (Add svc s) = findService name id s.
Proof.
  split.
  - rewrite findService_Add. now rewrite decide_True.
  - intros name id Hne. rewrite findService_Add.
    now rewrite decide_False by tauto.
Qed.

Lemma Add_then_find_witness :
  findService "echo" "id1" (Add echoService ∅) = findService "echo" "id1" ∅.
Proof.
  apply (proj2 (Add_then_find echoService ∅)). right. discriminate.
Defined.

Lemma findService_deleteInner (name id : string)
    (s : gmap string (gmap string Service)) (n i : string) :
  findService n i (deleteInner name id s)
  = if decide (n = name /\ i = id) then None else findService n i s.
Proof.
  unfold findService, deleteInner.
  destruct (s !! name) as [inner|] eqn:Hn;
    destruct (decide (n = name)) as [->|Hne].
  - rewrite lookup_insert_eq, Hn. destruct (decide (i = id)) as [->|Hi].
    + rewrite lookup_delete_eq. now rewrite decide_True.
    + rewrite lookup_delete_ne by congruence. now rewrite decide_False by tauto.
  - rewrite lookup_insert_ne by congruence. now rewrite decide_False by tauto.
  - rewrite Hn. now destruct (decide _).
  - now rewrite decide_False by tauto.
Qed.

(** X9: [Services.Remove] of a service whose liveness channel is open closes
    that channel and deletes exactly the entry (name, id); removing the
    same service a second time stops in the close of the closed
    channel. *)
Theorem Remove_open_channel (svc : Service)
    (s : gmap string (gmap string Service)) (closed : gset nat) (c : nat) :
  LivenessChannel svc = Some c -> c ∉ closed ->
  exists s',
    Remove svc s closed = Returns (s', {[c]} ∪ closed)
    /\ findService (Name svc) (Id svc) s' = None
    /\ (forall name id, (name <> Name svc \/ id <> Id svc) ->
          findService name id s' = findService name id s)
    /\ Remove svc s' ({[c]} ∪ closed) = Panics "close of closed channel".
Proof.
  intros Hc Hopen. exists (deleteInner (Name svc) (Id svc) s).
  unfold Remove, closeChan. rewrite Hc.
  rewrite decide_False by assumption.
  rewrite decide_True by (apply elem_of_union_l, elem_of_singleton; reflexivity).
  repeat split.
  - rewrite findService_deleteInner. now rewrite decide_True.
  - intros name id Hne. rewrite findService_deleteInner.
    now rewrite decide_False by tauto.
Qed.

Lemma Remove_open_channel_witness :
  let svc := mkService "id0" "echo" "10.0.0.1" 80 [] (Some 4%nat) in
  exists s', Remove svc (Add svc ∅) ∅ = Returns (s', {[4%nat]} ∪ ∅)
             /\ findService "echo" "id0" s' = None.
Proof.
  intros svc.
  destruct (Remove_open_channel svc (Add svc ∅) ∅ 4) as (s' & H1 & H2 & _).
  - reflexivity.
  - apply not_elem_of_empty.
  - exists s'. auto.
Defined.

(** X10: [DeleteService] applied to a registered service unregisters it only
    when its name equals its id; what it always drops is every service
    registered under the name that equals the id. *)
Theorem DeleteService_unregisters_iff (svc : Service) (m : Morpheus) :
  findService (Name svc) (Id svc) (Services m) = Some svc ->
  (findService (Name svc) (Id svc) (Services (DeleteService svc m)) = None
   <-> Name svc = Id svc)
  /\ forall id, findService (Id svc) id (Services (DeleteService svc m)) = None.
Proof.
  intros Hreg. unfold DeleteService, findService in *. simpl. split.
  - destruct (decide (Name svc = Id svc)) as [Heq|Hne].
    + rewrite Heq, lookup_delete_eq. tauto.
    + rewrite lookup_delete_ne by congruence.
      destruct (Services m !! Name svc); split; congruence.
  - intros id. now rewrite lookup_delete_eq.
Qed.

Lemma DeleteService_unregisters_iff_witness :
  findService "echo" "id0"
    (Services (DeleteService echoService (mkMorpheus (Add echoService ∅) ∅)))
  <> None.
Proof.
  intros H.
  assert (Hreg : findService (Name echoService) (Id echoService)
                   (Services (mkMorpheus (Add echoService ∅) ∅))
                 = Some echoService) by reflexivity.
  apply (proj1 (DeleteService_unregisters_iff echoService
                  (mkMorpheus (Add echoService ∅) ∅) Hreg)) in H.
  discriminate H.
Defined.

(** X11: [internalListServices] counts service names, not services: adding an
    instance of a name that is present leaves the count as it is, adding
    the first instance of a name raises it by one. *)
Theorem internalListServices_counts_names (svc : Service) (m : Morpheus) :
  internalListServices (mkMorpheus (Add svc (Services m)) (Scheduler m))
  = match Services m !! Name svc with
    | Some _ => internalListServices m
    | None => internalListServices m + 1
    end.
Proof.
  unfold internalListServices, Add. simpl.
  destruct (Services m !! Name svc) as [inner|] eqn:Hn.
  - f_equal. rewrite map_size_insert, Hn. reflexivity.
  - rewrite map_size_insert_None by assumption. lia.
Qed.

(** ** What registration starts and what a refused registration leaves *)

(** X12: A registration refused as a duplicate has no effect besides the
    random id it drew: registry, scheduler, store and goroutines are as
    before. *)
Theorem RegisterService_failure_no_effect (name : string) (port : Z)
    (routes : ServiceRoutes) (handler : option MessageHandler) (w : World) :
  serviceExists name (ids w (idsDrawn w)) (self w) = true ->
  let w' := snd (RegisterService name port routes handler w) in
  fst (RegisterService name port routes handler w) = Err ErrServiceExists
  /\ self w' = self w /\ redis w' = redis w /\ goroutines w' = goroutines w
  /\ idsDrawn w' = S (idsDrawn w).
Proof.
  intros Htaken. unfold RegisterService, bind, randomId. simpl.
  rewrite Htaken. simpl. auto.
Qed.

Lemma RegisterService_failure_no_effect_witness :
  redis (snd (RegisterService "echo" 81 [] (Some 2%nat) registered))
  = redis registered.
Proof.
  apply (RegisterService_failure_no_effect "echo" 81 [] (Some 2%nat) registered).
  reflexivity.
Defined.

(** X13: A successful registration starts one dispatch loop when a handler is
    given and none otherwise; the loop listens on the service key and on
    the name key, both of which start with [morpheus:service:] (so never
    on ["rpc"]).  It schedules the heartbeat under the service id with
    the two second interval unless that id is already scheduled, and
    itself publishes nothing and subscribes to nothing. *)
Theorem RegisterService_starts (name : string) (port : Z)
    (routes : ServiceRoutes) (handler : option MessageHandler) (w : World) :
  let id := ids w (idsDrawn w) in
  let svc := mkService id name (outboundIp w) port routes None in
  let w' := snd (RegisterService name port routes handler w) in
  let channels := ["morpheus:service:" +:+ name +:+ ":" +:+ id;
                   "morpheus:service:" +:+ name] in
  serviceExists name id (self w) = false ->
  goroutines w'
  = (goroutines w
     ++ match handler with
        | Some h => [DispatchLoop channels svc h]
        | None => []
        end)%list
  /\ (forall ch, In ch channels -> HasPrefix ch "morpheus:service:" = true)
  /\ Scheduler (self w')
     = match Scheduler (self w) !! id with
       | Some _ => Scheduler (self w)
       | None => <[id := mkTask (2 * Second) svc]> (Scheduler (self w))
       end
  /\ published (redis w') = published (redis w)
  /\ subscribed (redis w') = subscribed (redis w).
Proof.
  intros id svc w' channels Hfree. subst w'. repeat split.
  - unfold RegisterService, bind, randomId. simpl. fold id. rewrite Hfree.
    destruct handler; simpl; rewrite ?app_nil_r; reflexivity.
  - intros ch [<-|[<-|[]]]; apply HasPrefix_spec; eauto.
  - unfold RegisterService, bind, randomId. simpl. fold id. rewrite Hfree.
    destruct handler; simpl; unfold AddWithID; simpl;
      destruct (Scheduler (self w) !! id); reflexivity.
  - rewrite RegisterService_fresh_redis by assumption.
    apply UpdateService_pubsub.
  - rewrite RegisterService_fresh_redis by assumption.
    apply UpdateService_pubsub.
Qed.

Lemma RegisterService_starts_witness :
  goroutines (snd (RegisterService "echo" 80 [mkServiceRoute "/echo" (Some 1%nat)]
                     (Some 1%nat) quietWorld))
  = [DispatchLoop ["morpheus:service:echo:id0"; "morpheus:service:echo"]
       (mkService "id0" "echo" "10.0.0.1" 80 [mkServiceRoute "/echo" (Some 1%nat)] None)
       1%nat].
Proof.
  apply (RegisterService_starts "echo" 80 [mkServiceRoute "/echo" (Some 1%nat)]
           (Some 1%nat) quietWorld).
  reflexivity.
Defined.

(** ** Request and reply *)

Lemma coerceUTF8_length (s : string) :
  (String.length s <= String.length (coerceUTF8 s))%nat.
Proof.
  remember (String.length s) as n eqn:Hn. revert s Hn.
  induction n as [n IH] using lt_wf_ind. intros s ->.
  assert (Hbad : forall b0 s1, s = String b0 s1 ->
            (String.length s <= String.length (replacementChar +:+ coerceUTF8 s1))%nat).
  { intros b0 s1 ->. rewrite length_app_string. simpl.
    pose proof (IH (String.length s1) ltac:(simpl; lia) s1 eq_refl). lia. }
  destruct s as [|b0 s1]; [simpl; lia|].
  specialize (Hbad b0 s1 eq_refl).
  cbn [coerceUTF8].
  destruct (byteIn 0 127 b0).
  { simpl. pose proof (IH (String.length s1) ltac:(simpl; lia) s1 eq_refl). lia. }
  destruct s1 as [|b1 s2]; [exact Hbad|].
  destruct (twoBytes b0 b1).
  { simpl. pose proof (IH (String.length s2) ltac:(simpl; lia) s2 eq_refl). lia. }
  destruct s2 as [|b2 s3]; [exact Hbad|].
  destruct (threeBytes b0 b1 b2).
  { simpl. pose proof (IH (String.length s3) ltac:(simpl; lia) s3 eq_refl). lia. }
  destruct s3 as [|b3 s4]; [exact Hbad|].
  destruct (fourBytes b0 b1 b2 b3); [|exact Hbad].
  simpl. pose proof (IH (String.length s4) ltac:(simpl; lia) s4 eq_refl). lia.
Qed.

Lemma replacement_not_identity (b0 : ascii) (s1 : string) :
  replacementChar +:+ coerceUTF8 s1 <> String b0 s1.
Proof.
  intros H. apply (f_equal String.length) in H.
  rewrite length_app_string in H. simpl in H.
  pose proof (coerceUTF8_length s1). lia.
Qed.

Lemma coerceUTF8_eq (b0 : ascii) (s1 : string) :
  coerceUTF8 (String b0 s1)
  = if byteIn 0 127 b0 then String b0 (coerceUTF8 s1)
    else
      match s1 with
      | String b1 s2 =>
          if twoBytes b0 b1 then String b0 (String b1 (coerceUTF8 s2))
          else
            match s2 with
            | String b2 s3 =>
                if threeBytes b0 b1 b2
                then String b0 (String b1 (String b2 (coerceUTF8 s3)))
                else
                  match s3 with
                  | String b3 s4 =>
                      if fourBytes b0 b1 b2 b3
                      then String b0 (String b1 (String b2
                             (String b3 (coerceUTF8 s4))))
                      else replacementChar +:+ coerceUTF8 s1
                  | EmptyString => replacementChar +:+ coerceUTF8 s1
                  end
            | EmptyString => replacementChar +:+ coerceUTF8 s1
            end
      | EmptyString => replacementChar +:+ coerceUTF8 s1
      end.
Proof. reflexivity. Qed.

Lemma validUTF8_app (a b : string) :
  validUTF8 a -> validUTF8 b -> validUTF8 (a +:+ b).
Proof.
  unfold validUTF8. intros Ha Hb.
  remember (String.length a) as n eqn:Hn. revert a Hn Ha.
  induction n as [n IH] using lt_wf_ind. intros a -> Ha.
  destruct a as [|b0 s1]; [exact Hb|].
  change (String b0 s1 +:+ b) with (String b0 (s1 +:+ b)).
  rewrite coerceUTF8_eq in Ha |- *.
  destruct (byteIn 0 127 b0).
  { injection Ha as Ha. f_equal. apply (IH (String.length s1)); simpl; auto. }
  destruct s1 as [|b1 s2]; [now apply replacement_not_identity in Ha|].
  change (String b1 s2 +:+ b) with (String b1 (s2 +:+ b)). cbv beta iota.
  destruct (twoBytes b0 b1).
  { injection Ha as Ha. do 2 f_equal. apply (IH (String.length s2)); simpl; auto. }
  destruct s2 as [|b2 s3]; [now apply replacement_not_identity in Ha|].
  change (String b2 s3 +:+ b) with (String b2 (s3 +:+ b)). cbv beta iota.
  destruct (threeBytes b0 b1 b2).
  { injection Ha as Ha. do 3 f_equal. apply (IH (String.length s3)); simpl; auto. }
  destruct s3 as [|b3 s4]; [now apply replacement_not_identity in Ha|].
  change (String b3 s4 +:+ b) with (String b3 (s4 +:+ b)). cbv beta iota.
  destruct (fourBytes b0 b1 b2 b3); [|now apply replacement_not_identity in Ha].
  injection Ha as Ha. do 4 f_equal. apply (IH (String.length s4)); simpl; auto.
Qed.

(** X14: A request sent by [Message] and the reply [Respond] gives to it
    meet.  For a request whose strings are valid UTF-8 and whose payload
    can be serialized, the published text decodes to a message with the
    fields of the request, the requester is subscribed to
    [<channel>:response:<msgId>] with one waiter on it, and [Respond] to
    the decoded message publishes its reply on exactly that topic, from
    the recipient back to the sender, when the answer can be serialized,
    and publishes nothing when it cannot. *)
Theorem Respond_reaches_waiter (channel from to route : string)
    (payload answer : GoValue) (retch : chan) (w : World) :
  let id := ids w (idsDrawn w) in
  let topic := channel +:+ ":response:" +:+ id in
  let w1 := snd (Message channel from to route payload None retch w) in
  validUTF8 channel -> validUTF8 from -> validUTF8 to -> validUTF8 route ->
  validUTF8 id -> inInt64 (clock w) = true -> supported payload = true ->
  exists text decoded,
    published (redis w1) = (published (redis w) ++ [(channel, text)])%list
    /\ unmarshalMessage text = OK decoded
    /\ Msg.Timestamp decoded = clock w /\ Msg.MsgId decoded = id
    /\ Msg.ResponseChannel decoded = topic /\ Msg.Channel decoded = channel
    /\ Msg.Route decoded = route
    /\ Msg.From decoded = from /\ Msg.To decoded = to
    /\ subscribed (redis w1) = (subscribed (redis w) ++ [[topic]])%list
    /\ goroutines w1 = (goroutines w ++ [ResponseWaiter topic retch])%list
    /\ (supported answer = true ->
        exists reply,
          published (redis (snd (Respond decoded answer w1)))
          = (published (redis w1)
             ++ [(topic, Doc (JObject (messageFields reply)))])%list
          /\ Msg.From reply = to /\ Msg.To reply = from
          /\ Msg.Route reply = route /\ Msg.Payload reply = answer
          /\ Msg.ResponseChannel reply = "")
    /\ (supported answer = false ->
        published (redis (snd (Respond decoded answer w1))) = published (redis w1)).
Proof.
  intros id topic w1 Hch Hfr Hto Hrt Hid Hclock Hpl.
  set (request := buildMessage channel from to route payload None id (clock w)).
  pose proof (Message_sent channel from to route payload None retch w Hpl)
    as (Hp & Hs & Hg & _).
  fold id request w1 in Hp, Hs, Hg.
  assert (Htopic : validUTF8 topic).
  { apply validUTF8_app; [assumption|]. now apply (validUTF8_app ":response:" id). }
  pose proof (setFields_messageFields request Hclock Hid Htopic Hch Hrt Hfr Hto)
    as Hdec.
  exists (Doc (JObject (messageFields request))). eexists.
  split; [exact Hp|]. split; [unfold unmarshalMessage; now rewrite Hdec|].
  do 7 (split; [reflexivity|]).
  split; [exact Hs|]. split; [exact Hg|]. split.
  - intros Hans. cbn [Msg.ResponseChannel Msg.To Msg.From Msg.Route request
                      buildMessage Msg.MsgId].
    exists (buildMessage topic to from route answer (Some topic)
              (ids w1 (idsDrawn w1)) (clock w1)).
    split; [|repeat split].
    pose proof (Message_sent topic to from route answer (Some topic) None w1 Hans)
      as (Hp' & _).
    exact Hp'.
  - intros Hans.
    pose proof (Message_dropped topic to from route answer (Some topic) None w1 Hans)
      as (Hr & _).
    unfold Respond. cbn [Msg.ResponseChannel Msg.To Msg.From Msg.Route request
                          buildMessage Msg.MsgId].
    fold topic. now rewrite Hr.
Qed.

Lemma Respond_reaches_waiter_witness :
  let w1 := snd (Message "morpheus:service:echo:id0" "client"
                   "morpheus:service:echo:id0" "/echo" (GInt 7) None
                   (Some 0%nat) quietWorld) in
  exists text decoded reply,
    published (redis w1) = [("morpheus:service:echo:id0", text)]
    /\ unmarshalMessage text = OK decoded
    /\ published (redis (snd (Respond decoded (GString "pong") w1)))
       = [("morpheus:service:echo:id0", text);
          ("morpheus:service:echo:id0:response:id0",
           Doc (JObject (messageFields reply)))].
Proof.
  intros w1.
  destruct (Respond_reaches_waiter "morpheus:service:echo:id0" "client"
              "morpheus:service:echo:id0" "/echo" (GInt 7) (GString "pong")
              (Some 0%nat) quietWorld)
    as (text & decoded & Hp & Hd & _ & _ & _ & _ & _ & _ & _ & _ & _ & Hr & _);
    try reflexivity.
  destruct (Hr eq_refl) as (reply & Hpub & _).
  exists text, decoded, reply. fold w1 in Hp, Hpub.
  split; [exact Hp|]. split; [exact Hd|].
  etransitivity; [exact Hpub|]. rewrite Hp. reflexivity.
Defined.

(** ** Who will send on the channel an RPC returns *)

Lemma RPC_unfold (from : string) (service : Service) (route : string)
    (payload : GoValue) (w : World) :
  RPC from service route payload w
  = (Some (chansMade w),
     snd (Message "rpc" from (Key service) route payload None
            (Some (chansMade w)) (afterMakeChan w))).
Proof.
  unfold RPC, bind, afterMakeChan. simpl.
  destruct (Message _ _ _ _ _ _ _ _) as [[] w2]. reflexivity.
Qed.

Lemma RPCWithTimeout_unfold (from : string) (service : Service) (route : string)
    (payload : GoValue) (timeout : Z) (w : World) :
  RPCWithTimeout from service route payload timeout w
  = (Some (chansMade w),
     snd (spawn (TimeoutSender timeout (Some (chansMade w)))
            (snd (Message (Key service) from (Key service) route payload None
                    (Some (chansMade w)) (afterMakeChan w))))).
Proof.
  unfold RPCWithTimeout, bind, afterMakeChan. simpl.
  destruct (Message _ _ _ _ _ _ _ _) as [[] w2]. reflexivity.
Qed.

(** X15: [RPC] returns a channel made for the call.  When the payload can be
    serialized one waiter, subscribed to [rpc:response:<msgId>], is the
    only goroutine that will send on it; when it cannot, nothing is
    published and no goroutine is started, so nothing is ever sent on
    the returned channel. *)
Theorem RPC_senders (from : string) (service : Service) (route : string)
    (payload : GoValue) (w : World) :
  let retch := fst (RPC from service route payload w) in
  let w' := snd (RPC from service route payload w) in
  retch = Some (chansMade w)
  /\ chansMade w' = S (chansMade w)
  /\ (supported payload = true ->
        goroutines w'
        = (goroutines w
           ++ [ResponseWaiter ("rpc:response:" +:+ ids w (idsDrawn w)) retch])%list)
  /\ (supported payload = false ->
        goroutines w' = goroutines w /\ redis w' = redis w).
Proof.
  intros retch w'. subst retch w'. rewrite RPC_unfold. simpl.
  split; [reflexivity|]. split; [|split].
  - unfold Message, bind, randomId, timeNowUnix. simpl.
    destruct (marshalMessage _); [|reflexivity]. reflexivity.
  - intros Hs.
    pose proof (Message_sent "rpc" from (Key service) route payload None
                  (Some (chansMade w)) (afterMakeChan w) Hs) as (_ & _ & Hg & _).
    exact Hg.
  - intros Hs.
    pose proof (Message_dropped "rpc" from (Key service) route payload None
                  (Some (chansMade w)) (afterMakeChan w) Hs) as (Hr & Hg & _).
    split; [exact Hg|exact Hr].
Qed.

Lemma RPC_senders_witness :
  goroutines (snd (RPC "client" echoService "/echo" (GChan 0) quietWorld)) = [].
Proof.
  apply (RPC_senders "client" echoService "/echo" (GChan 0) quietWorld).
  reflexivity.
Defined.

(** X16: [RPCWithTimeout] starts two goroutines that both send on the channel
    it returns, the waiter for the reply and the timer that sends nil,
    so a reply and the nil can both arrive; when the payload cannot be
    serialized only the timer is started. *)
Theorem RPCWithTimeout_senders (from : string) (service : Service)
    (route : string) (payload : GoValue) (timeout : Z) (w : World) :
  let retch := fst (RPCWithTimeout from service route payload timeout w) in
  let w' := snd (RPCWithTimeout from service route payload timeout w) in
  retch = Some (chansMade w)
  /\ (supported payload = true ->
        goroutines w'
        = (goroutines w
           ++ [ResponseWaiter (Key service +:+ ":response:" +:+ ids w (idsDrawn w))
                 retch;
               TimeoutSender timeout retch])%list)
  /\ (supported payload = false ->
        goroutines w' = (goroutines w ++ [TimeoutSender timeout retch])%list
        /\ redis w' = redis w).
Proof.
  intros retch w'. subst retch w'. rewrite RPCWithTimeout_unfold. simpl.
  split; [reflexivity|]. split.
  - intros Hs.
    pose proof (Message_sent (Key service) from (Key service) route payload None
                  (Some (chansMade w)) (afterMakeChan w) Hs) as (_ & _ & Hg & _).
    rewrite Hg. simpl. now rewrite <- app_assoc.
  - intros Hs.
    pose proof (Message_dropped (Key service) from (Key service) route payload None
                  (Some (chansMade w)) (afterMakeChan w) Hs) as (Hr & Hg & _).
    rewrite Hg, Hr. split; reflexivity.
Qed.

Lemma RPCWithTimeout_senders_witness :
  goroutines (snd (RPCWithTimeout "client" echoService "/echo" (GString "hello")
                     Second quietWorld))
  = [ResponseWaiter "morpheus:service:echo:id0:response:id0" (Some 0%nat);
     TimeoutSender Second (Some 0%nat)].
Proof.
  apply (RPCWithTimeout_senders "client" echoService "/echo" (GString "hello")
           Second quietWorld).
  reflexivity.
Defined.

(** ** The order of the list of services *)

Lemma idLess_true_le (a b : Service) : idLess a b = true -> idLe a b.
Proof.
  unfold idLess, idLe, String.ltb, String.leb.
  now destruct (String.compare (Id a) (Id b)).
Qed.

Lemma idLess_false_le (a b : Service) : idLess a b = false -> idLe b a.
Proof.
  unfold idLess, idLe, String.ltb, String.leb.
  rewrite (String.compare_antisym (Id a) (Id b)).
  now destruct (String.compare (Id b) (Id a)).
Qed.

Lemma idLe_trans (a b c : Service) : idLe a b -> idLe b c -> idLe a c.
Proof.
  unfold idLe. intros H1%Is_true_true H2%Is_true_true. apply Is_true_true.
  change (String.le (Id a) (Id c)). now transitivity (Id b).
Qed.

Lemma insertStable_sorted (x : Service) (l : list Service) :
  StronglySorted idLe l -> StronglySorted idLe (insertStable idLess x l).
Proof.
  induction 1 as [|y l Hl IH Hy]; simpl.
  - repeat constructor.
  - destruct (idLess y x) eqn:Hyx.
    + constructor; [exact IH|].
      apply Forall_forall. intros z Hz.
      apply list_elem_of_In in Hz.
      apply (Permutation_in _ (Permutation_sym (insertStable_perm idLess x l))) in Hz.
      destruct Hz as [<-|Hz]; [now apply idLess_true_le|].
      rewrite Forall_forall in Hy. apply Hy. now apply list_elem_of_In.
    + apply idLess_false_le in Hyx.
      constructor; [now constructor|]. constructor; [assumption|].
      eapply Forall_impl; [exact Hy|]. intros z Hz. now apply (idLe_trans x y z).
Qed.

Lemma sortStable_sorted (l : list Service) :
  StronglySorted idLe (sortStable idLess l).
Proof.
  induction l as [|x l IH]; simpl; [constructor|]. now apply insertStable_sorted.
Qed.

(** X17: [ListServices] returns the services in ascending order of their ids:
    every service has an id less than or equal to the ids of all the
    services after it. *)
Theorem ListServices_sorted_by_id (r : Redis) :
  exists svcs,
    ListServices r = Returns svcs
    /\ StronglySorted (fun a b => String.leb (Id a) (Id b) = true) svcs.
Proof.
  unfold ListServices. destruct (0 <? _)%nat.
  - destruct (listLoop_returns r (redisKeys "morpheus:service:*:presence" r) [])
      as [svcs ->].
    + apply Forall_forall. intros k Hk. apply list_elem_of_filter in Hk. tauto.
    + eexists. split; [reflexivity|]. apply sortStable_sorted.
  - eexists. split; [reflexivity|]. constructor.
Qed.

(** ** Keys and names *)

Lemma Split_colonFree_app (a b : string) :
  colonFree a = true -> Split (a +:+ String colon b) = a :: Split b.
Proof.
  induction a as [|c a IH]; [reflexivity|].
  change (String c a +:+ String colon b) with (String c (a +:+ String colon b)).
  simpl. destruct (Ascii.eqb c colon); [discriminate|]. simpl.
  intros Ha. now rewrite IH.
Qed.

(** X18: The package function [getBaseKey] applied to the key of a service
    whose name has no colon returns the base key of that service. *)
Theorem getBaseKey_of_Key (svc : Service) :
  colonFree (Name svc) = true ->
  getBaseKey (Key svc) = Some (Service_getBaseKey svc).
Proof.
  intros Hname. unfold getBaseKey, Key, Service_getBaseKey.
  change ("morpheus:service:" +:+ Name svc +:+ ":" +:+ Id svc)
    with ("morpheus" +:+ String colon ("service" +:+ String colon
            (Name svc +:+ String colon (Id svc)))).
  rewrite (Split_colonFree_app "morpheus") by reflexivity.
  rewrite (Split_colonFree_app "service") by reflexivity.
  rewrite (Split_colonFree_app (Name svc)) by assumption.
  destruct (Split_nonempty (Id svc)) as (p & ps & ->).
  reflexivity.
Qed.

Lemma getBaseKey_of_Key_witness :
  getBaseKey (Key echoService) = Some "morpheus:service:echo".
Proof. apply (getBaseKey_of_Key echoService). reflexivity. Defined.

(** ** An empty store *)

(** X19: After [FlushDB] nothing is discoverable: [ListServices] returns the
    empty list and [ResolveService] fails with "service not found" for
    every path, without drawing a random number; the local registry is
    not touched. *)
Theorem FlushDB_nothing_discoverable (w : World) (path : string) :
  let w' := snd (FlushDB w) in
  ListServices (redis w') = Returns []
  /\ ResolveService path w' = (Returns (Err ErrServiceNotFound), w')
  /\ self w' = self w.
Proof.
  intros w'.
  assert (Hl : ListServices (redis w') = Returns []).
  { unfold ListServices, redisKeys. subst w'. simpl.
    rewrite map_to_list_empty. reflexivity. }
  split; [exact Hl|]. split; [|reflexivity].
  unfold ResolveService. rewrite Hl. reflexivity.
Qed.

(** ** Matching *)

(** X20: Prefix routing is closed under extending the path: a service that
    matches a path matches every path that continues it; a service with
    the empty route matches every path, one without routes none. *)
Theorem Match_extends (s : Service) (path suffix : string) :
  (Match s path = true -> Match s (path +:+ suffix) = true)
  /\ (In "" (map Route (Routes s)) -> Match s path = true)
  /\ (Routes s = [] -> Match s path = false).
Proof.
  unfold Match. split; [|split].
  - rewrite !matchRoutes_spec. intros (r & Hin & Hp). exists r. split; [assumption|].
    apply HasPrefix_spec in Hp as [rest ->]. apply HasPrefix_spec.
    exists (rest +:+ suffix). apply app_assoc_string.
  - intros Hin. apply in_map_iff in Hin as (r & Hr & Hin).
    apply matchRoutes_spec. exists r. split; [assumption|].
    rewrite Hr. apply HasPrefix_spec. now exists path.
  - now intros ->.
Qed.

Lemma Match_extends_witness :
  Match echoService ("/echo" +:+ "/deep/path") = true.
Proof.
  apply (proj1 (Match_extends echoService "/echo" "/deep/path")). reflexivity.
Defined.

(** X21: [ServiceRoutes.Less(i, j)] is defined exactly when both indices
    are in the table and is then true exactly when route [i] is strictly
    longer than route [j]; so it is a strict order by descending route
    length: irreflexive, asymmetric and transitive. *)
Theorem Less_strict_order (s : ServiceRoutes) (i j k : nat) :
  (Less s i j = None <-> (length s <= i \/ length s <= j)%nat)
  /\ (Less s i j = Some true <->
      exists a b, s !! i = Some a /\ s !! j = Some b
                  /\ (String.length (Route b) < String.length (Route a))%nat)
  /\ (Less s i j = Some false <->
      exists a b, s !! i = Some a /\ s !! j = Some b
                  /\ (String.length (Route a) <= String.length (Route b))%nat)
  /\ Less s i i <> Some true
  /\ (Less s i j = Some true -> Less s j i = Some false)
  /\ (Less s i j = Some true -> Less s j k = Some true -> Less s i k = Some true).
Proof.
  unfold Less, routeLess. split; [|split; [|split; [|split; [|split]]]].
  - destruct (s !! i) as [a|] eqn:Hi; destruct (s !! j) as [b|] eqn:Hj.
    + apply lookup_lt_Some in Hi, Hj. split; [discriminate|lia].
    + apply lookup_ge_None in Hj. tauto.
    + apply lookup_ge_None in Hi. tauto.
    + apply lookup_ge_None in Hi. tauto.
  - destruct (s !! i) as [a|]; destruct (s !! j) as [b|].
    + split.
      * intros [= H%Nat.ltb_lt]. eauto.
      * intros (a' & b' & [= <-] & [= <-] & H). f_equal. now apply Nat.ltb_lt.
    + split; [discriminate|]. intros (? & ? & _ & ? & _). discriminate.
    + split; [discriminate|]. intros (? & ? & ? & _). discriminate.
    + split; [discriminate|]. intros (? & ? & ? & _). discriminate.
  - destruct (s !! i) as [a|]; destruct (s !! j) as [b|].
    + split.
      * intros [= H%Nat.ltb_ge]. eauto.
      * intros (a' & b' & [= <-] & [= <-] & H). f_equal. now apply Nat.ltb_ge.
    + split; [discriminate|]. intros (? & ? & _ & ? & _). discriminate.
    + split; [discriminate|]. intros (? & ? & ? & _). discriminate.
    + split; [discriminate|]. intros (? & ? & ? & _). discriminate.
  - destruct (s !! i) as [a|]; [|discriminate].
    rewrite Nat.ltb_irrefl. discriminate.
  - destruct (s !! i) as [a|]; destruct (s !! j) as [b|]; try discriminate.
    intros [= H%Nat.ltb_lt]. f_equal. apply Nat.ltb_ge. lia.
  - destruct (s !! i) as [a|]; destruct (s !! j) as [b|];
      destruct (s !! k) as [c|]; try discriminate.
    intros [= H1%Nat.ltb_lt] [= H2%Nat.ltb_lt]. f_equal. apply Nat.ltb_lt. lia.
Qed.

Lemma Less_strict_order_witness :
  let s := [mkServiceRoute "/r" None; mkServiceRoute "/long/route" None] in
  Less s 1 0 = Some true /\ Less s 0 1 = Some false.
Proof.
  intros s.
  assert (H : Less s 1 0 = Some true).
  { apply (proj1 (proj2 (Less_strict_order s 1 0 0))).
    exists (mkServiceRoute "/long/route" None), (mkServiceRoute "/r" None).
    repeat split. simpl. lia. }
  split; [exact H|].
  exact (proj1 (proj2 (proj2 (proj2 (proj2 (Less_strict_order s 1 0 0))))) H).
Defined.

(** ** Which services are listed *)

Lemma listLoop_sound (r : Redis) (keys : list string) (acc svcs : list Service)
    (svc : Service) :
  listLoop r keys acc = Returns svcs -> svc ∈ svcs ->
  svc ∈ acc
  \/ exists key val name,
       key ∈ keys /\ redisGet key r = OK val /\ getServiceName key = Some name
       /\ FetchService name (textString val) r = OK svc.
Proof.
  revert acc. induction keys as [|k keys IH]; intros acc; simpl.
  - intros [= ->]. auto.
  - destruct (redisGet k r) as [v|] eqn:Hget.
    + destruct (getServiceName k) as [n|] eqn:Hname; [|discriminate].
      destruct (FetchService n (textString v) r) as [found|] eqn:Hfetch.
      * intros Hl Hin. destruct (IH _ Hl Hin) as [Hacc|(key & val & name & Hk & H)].
        -- apply elem_of_app in Hacc as [Hacc|Hnew]; [auto|].
           apply list_elem_of_singleton in Hnew as ->.
           right. exists k, v, n. split; [apply elem_of_cons; auto|auto].
        -- right. exists key, val, name. split; [apply elem_of_cons; auto|auto].
      * intros Hl Hin. destruct (IH _ Hl Hin) as [Hacc|(key & val & name & Hk & H)];
          [auto|].
        right. exists key, val, name. split; [apply elem_of_cons; auto|auto].
    + intros Hl Hin. destruct (IH _ Hl Hin) as [Hacc|(key & val & name & Hk & H)];
        [auto|].
      right. exists key, val, name. split; [apply elem_of_cons; auto|auto].
Qed.

(** X22: [ListServices] lists exactly the services that have, in the store, a
    presence key and the health record that key points to: a service is
    in the list when and only when some key matching
    [morpheus:service:*:presence] holds a string and [FetchService], for
    the name taken from the key and the id taken from its value, returns
    that service.  A service whose presence key is gone is not listed. *)
Theorem ListServices_lists_exactly (r : Redis) (svc : Service) :
  exists svcs,
    ListServices r = Returns svcs
    /\ (svc ∈ svcs <->
        exists key val name,
          glob "morpheus:service:*:presence" key = true
          /\ redisGet key r = OK val
          /\ getServiceName key = Some name
          /\ FetchService name (textString val) r = OK svc).
Proof.
  destruct (ListServices_returns r) as [svcs Hl]. exists svcs.
  split; [assumption|]. unfold ListServices in Hl.
  destruct (0 <? length _)%nat eqn:Hlen.
  - destruct (listLoop _ _ _) as [found|] eqn:Hloop; [|discriminate].
    injection Hl as <-. split.
    + intros Hin.
      apply list_elem_of_In in Hin.
      apply (Permutation_in _ (Permutation_sym (sortStable_perm idLess found))) in Hin.
      apply list_elem_of_In in Hin.
      destruct (listLoop_sound _ _ _ _ _ Hloop Hin)
        as [Hacc|(key & val & name & Hk & Hget & Hname & Hfetch)];
        [inversion Hacc|].
      apply redisKeys_elem in Hk as [Hg _]. eauto 8.
    + intros (key & val & name & Hg & Hget & Hname & Hfetch).
      apply list_elem_of_In.
      apply (Permutation_in _ (sortStable_perm idLess found)).
      apply list_elem_of_In.
      apply (listLoop_elem _ _ _ _ key val name _ Hloop); auto.
      apply redisKeys_elem. split; [assumption|].
      unfold redisGet in Hget. destruct (kv r !! key); [eauto|discriminate].
  - injection Hl as <-. split; [intros Hin; inversion Hin|].
    intros (key & val & name & Hg & Hget & _).
    assert (Hk : key ∈ redisKeys "morpheus:service:*:presence" r).
    { apply redisKeys_elem. split; [assumption|].
      unfold redisGet in Hget. destruct (kv r !! key); [eauto|discriminate]. }
    apply Nat.ltb_ge in Hlen.
    destruct (redisKeys _ r); [inversion Hk|simpl in Hlen; lia].
Qed.

(** X23: [ResolveService] only reads: registry, scheduler, store and
    goroutines are as before, and a random number is drawn exactly when
    a service is returned. *)
Theorem ResolveService_only_reads (path : string) (w : World) :
  let w' := snd (ResolveService path w) in
  self w' = self w /\ redis w' = redis w /\ goroutines w' = goroutines w
  /\ idsDrawn w' = idsDrawn w
  /\ intsDrawn w'
     = match fst (ResolveService path w) with
       | Returns (OK _) => S (intsDrawn w)
       | _ => intsDrawn w
       end.
Proof.
  unfold ResolveService.
  destruct (ListServices_returns (redis w)) as [svcs ->].
  set (out := filter (fun s => Match s path = true) svcs).
  destruct (0 <? length out)%nat eqn:Hlen; [|simpl; auto 6].
  unfold randInt.
  assert (Hidx : (N.to_nat (ints w (intsDrawn w) mod N.of_nat (length out))
                  < length out)%nat).
  { apply Nat.ltb_lt in Hlen.
    pose proof (N.mod_upper_bound (ints w (intsDrawn w)) (N.of_nat (length out))).
    lia. }
  destruct (lookup_lt_is_Some_2 out _ Hidx) as [s ->]. simpl. auto 6.
Qed.

(** X24: Registration never touches an earlier entry of the registry: what
    was registered under a name and id before the call is still
    registered under them after it, whether the call succeeds or is
    refused. *)
Theorem RegisterService_keeps_earlier (name : string) (port : Z)
    (routes : ServiceRoutes) (handler : option MessageHandler) (w : World)
    (n i : string) (earlier : Service) :
  findService n i (Services (self w)) = Some earlier ->
  findService n i (Services (self (snd (RegisterService name port routes handler w))))
  = Some earlier.
Proof.
  intros Hfound.
  destruct (serviceExists name (ids w (idsDrawn w)) (self w)) eqn:Hex.
  - destruct (RegisterService_taken name port routes handler w Hex) as (_ & -> & _).
    exact Hfound.
  - destruct (RegisterService_fresh name port routes handler w Hex) as (_ & ->).
    rewrite findService_Add. simpl.
    destruct (decide _) as [[-> ->]|]; [|exact Hfound].
    assert (serviceExists name (ids w (idsDrawn w)) (self w) = true)
      by (apply serviceExists_find; rewrite Hfound; eauto).
    congruence.
Qed.

Lemma RegisterService_keeps_earlier_witness :
  findService "echo" "id0"
    (Services (self (snd (RegisterService "other" 81 [] None registered))))
  = Some echoService.
Proof.
  apply (RegisterService_keeps_earlier "other" 81 [] None registered).
  reflexivity.
Defined.



(** ** A fresh process, and the keys of different services *)

(** X26: On the [Morpheus] that [Init] returns the first registration
    always succeeds, whatever id is drawn, and the registry then has one
    name. *)
Theorem Init_then_register (name : string) (port : Z) (routes : ServiceRoutes)
    (handler : option MessageHandler) (w : World) :
  self w = Init ->
  let w' := snd (RegisterService name port routes handler w) in
  fst (RegisterService name port routes handler w)
  = OK (mkService (ids w (idsDrawn w)) name (outboundIp w) port routes None)
  /\ internalListServices (self w') = 1.
Proof.
  intros Hinit w'. subst w'.
  assert (Hfree : serviceExists name (ids w (idsDrawn w)) (self w) = false)
    by now rewrite Hinit.
  destruct (RegisterService_fresh name port routes handler w Hfree) as (Hok & Hreg).
  split; [exact Hok|].
  unfold internalListServices. rewrite Hreg, Hinit.
  unfold Add, Init. simpl. rewrite lookup_empty, insert_empty, map_size_singleton.
  reflexivity.
Qed.

Lemma Init_then_register_witness :
  fst (RegisterService "echo" 80 [mkServiceRoute "/echo" None] None quietWorld)
  = OK echoService.
Proof.
  apply (Init_then_register "echo" 80 [mkServiceRoute "/echo" None] None quietWorld).
  reflexivity.
Defined.

Lemma colonFree_app_inj (a b x y : string) :
  colonFree a = true -> colonFree b = true ->
  a +:+ String colon x = b +:+ String colon y -> a = b /\ x = y.
Proof.
  revert b. induction a as [|c a IH]; intros [|d b]; simpl.
  - intros _ _ [= ->]. auto.
  - intros _ Hb. change ("" +:+ String colon x) with (String colon x).
    change (String d b +:+ String colon y) with (String d (b +:+ String colon y)).
    intros [= <- _]. now rewrite Ascii.eqb_refl in Hb.
  - intros Ha _. change ("" +:+ String colon y) with (String colon y).
    change (String c a +:+ String colon x) with (String c (a +:+ String colon x)).
    intros [= -> _]. now rewrite Ascii.eqb_refl in Ha.
  - intros Ha%andb_prop Hb%andb_prop.
    change (String c a +:+ String colon x) with (String c (a +:+ String colon x)).
    change (String d b +:+ String colon y) with (String d (b +:+ String colon y)).
    intros [= -> H]. destruct (IH b) as [-> ->]; tauto.
Qed.

(** X27: Services with colon-free names have equal keys only when they
    have the same name and the same id: their store keys and topics never
    collide. *)
Theorem Key_injective (a b : Service) :
  colonFree (Name a) = true -> colonFree (Name b) = true ->
  Key a = Key b -> Name a = Name b /\ Id a = Id b.
Proof.
  intros Ha Hb. unfold Key. intros H%(inj (String.app _)).
  now apply colonFree_app_inj.
Qed.

Lemma Key_injective_witness :
  Name echoService = Name (stripService echoService)
  /\ Id echoService = Id (stripService echoService).
Proof.
  apply (Key_injective echoService (stripService echoService)); reflexivity.
Defined.
